(** * ProofPath: bit paths of the Merkle Patricia tree (exonum-client)

    A shallow embedding of [src/blockchain/ProofPath.js] and the
    properties of its operations.

    Conventions of the embedding.
    - JavaScript numbers that the code uses as positions and lengths are
      integers, modelled as [Z]. The 32-bit operators [<<], [>>], [&], [|]
      go through [JS.toInt32] as the language defines them.
    - [undefined] is [None]; a value that is a number or [undefined] is an
      [option Z].
    - A [Uint8Array] is a [list Z] of bytes. Reading outside the array gives
      [undefined], writing outside it does nothing, a written value is
      reduced modulo 256.
    - A thrown exception is the [Throw] case of [result]. *)

From Stdlib Require Import ZArith List String Ascii Bool Lia.
From stdpp Require Import base list.
Import ListNotations.
Local Open Scope Z_scope.

(** ** JavaScript operators *)

Module JS.

(** [ToInt32]: the signed 32-bit value of an integer. *)
Definition toInt32 (z : Z) : Z := (z + 2 ^ 31) mod 2 ^ 32 - 2 ^ 31.

(** [a << b] *)
Definition shl (a b : Z) : Z := toInt32 (Z.shiftl (toInt32 a) (Z.land b 31)).

(** [a >> b] *)
Definition shr (a b : Z) : Z := Z.shiftr (toInt32 a) (Z.land b 31).

(** [a & b] *)
Definition band (a b : Z) : Z := Z.land (toInt32 a) (toInt32 b).

(** [a | b] *)
Definition bor (a b : Z) : Z := Z.lor (toInt32 a) (toInt32 b).

(** [a % b]: the remainder has the sign of the dividend. *)
Definition rem (a b : Z) : Z := Z.rem a b.

(** [Math.floor(a / b)] for a positive [b]. *)
Definition floorDiv (a b : Z) : Z := a / b.

(** [Math.sign] *)
Definition sign (a : Z) : Z := Z.sgn a.

(** [ToNumber] followed by an integer conversion: [undefined] counts as 0
    in a bit operation and when stored into a typed array. *)
Definition num (v : option Z) : Z := default 0 v.

(** [a - b] on values that may be [undefined]; [None] is [NaN]. *)
Definition sub (a b : option Z) : option Z :=
  match a, b with
  | Some x, Some y => Some (x - y)
  | _, _ => None
  end.

(** [s.substring(0, e)]: the end is clamped to [0, s.length]. *)
Definition substring0 (s : string) (e : Z) : string :=
  String.substring 0 (Z.to_nat e) s.

End JS.

(** ** Exceptions *)

Inductive exn : Type :=
| TypeError
| Error.

Inductive result (A : Type) : Type :=
| Ok (a : A)
| Throw (e : exn).

Arguments Ok {A} a.
Arguments Throw {A} e.

(** ** Typed arrays *)

Abbreviation Uint8Array := (list Z).

(** [a[i]] *)
Definition u8_get (a : Uint8Array) (i : Z) : option Z :=
  if i <? 0 then None else a !! Z.to_nat i.

(** [a[i] = v] *)
Definition u8_set (a : Uint8Array) (i : Z) (v : Z) : Uint8Array :=
  if i <? 0 then a else <[Z.to_nat i := v mod 256]> a.

(** [new Uint8Array(n)] *)
Definition u8_new (n : Z) : Uint8Array := replicate (Z.to_nat n) 0.

(** ** The conversions of [../types/convert] *)

Module Convert.

Definition parseBinaryDigit (c : ascii) : option bool :=
  if Ascii.eqb c "0" then Some false
  else if Ascii.eqb c "1" then Some true
  else None.

Fixpoint binaryDigits (s : string) : option (list bool) :=
  match s with
  | EmptyString => Some []
  | String c s' =>
      match parseBinaryDigit c, binaryDigits s' with
      | Some b, Some bs => Some (b :: bs)
      | _, _ => None
      end
  end.

(** The byte whose bit [k] is the [k]-th element of the list. *)
Fixpoint byteOfBits (bs : list bool) : Z :=
  match bs with
  | [] => 0
  | b :: bs' => Z.b2z b + 2 * byteOfBits bs'
  end.

(** [n] bytes, one for each group of eight digits. *)
Fixpoint packBytes (n : nat) (bs : list bool) : Uint8Array :=
  match n with
  | O => []
  | S n' => byteOfBits (take 8 bs) :: packBytes n' (drop 8 bs)
  end.

(** Modelled from the spec: [binaryStringToUint8Array] of
    [../types/convert], which is not part of the sources at hand. The
    string of binary digits is cut into groups of eight characters, one
    byte per group, and the character at index 0 of a group is the least
    significant bit of its byte (section 8, scenario 4: "bit 0 at index 0
    mapped to the LSB"). A string with a character other than '0' and '1'
    is not a bit-string and is rejected with the invalid-input error
    (section 4.1); the constructor has no check of its own. *)
Definition binaryStringToUint8Array (s : string) : result Uint8Array :=
  match binaryDigits s with
  | None => Throw TypeError
  | Some bs => Ok (packBytes (Nat.div (length bs + 7) 8) bs)
  end.

(** The hexadecimal digit of a number below 16. *)
Definition hexDigit (n : Z) : ascii :=
  default "f"%char (String.get (Z.to_nat n) "0123456789abcdef").

(** The number a hexadecimal digit, of either case, stands for. *)
Definition hexValue (c : ascii) : option Z :=
  let n := Z.of_N (N_of_ascii c) in
  if (48 <=? n) && (n <=? 57) then Some (n - 48)
  else if (97 <=? n) && (n <=? 102) then Some (n - 87)
  else if (65 <=? n) && (n <=? 70) then Some (n - 55)
  else None.

(** Modelled from the spec: [uint8ArrayToHexadecimal] of
    [../types/convert], not part of the sources at hand: the "hexadecimal
    string view of key" (section 3), two digits per byte, the high nibble
    first. *)
Fixpoint uint8ArrayToHexadecimal (a : Uint8Array) : string :=
  match a with
  | [] => EmptyString
  | b :: a' =>
      String (hexDigit (b / 16))
        (String (hexDigit (b mod 16)) (uint8ArrayToHexadecimal a'))
  end.

Definition binaryDigit (b : bool) : ascii := if b then "1"%char else "0"%char.

(** The eight binary digits of a byte, the least significant first: the
    order in which [binaryStringToUint8Array] packs them. *)
Definition byteLsbFirst (b : Z) (rest : string) : string :=
  String (binaryDigit (Z.testbit b 0))
    (String (binaryDigit (Z.testbit b 1))
       (String (binaryDigit (Z.testbit b 2))
          (String (binaryDigit (Z.testbit b 3))
             (String (binaryDigit (Z.testbit b 4))
                (String (binaryDigit (Z.testbit b 5))
                   (String (binaryDigit (Z.testbit b 6))
                      (String (binaryDigit (Z.testbit b 7)) rest))))))).

(** Modelled from the spec: [hexadecimalToBinaryString] of
    [../types/convert], not part of the sources at hand. It gives "the
    binary-digit string of key" (section 4.10) from the hexadecimal view:
    a string of 2n hexadecimal digits becomes 8n binary digits, eight for
    each pair of digits, one byte. The digit at index [i] of the result is
    the bit [i] of the key, so each byte is expanded with its least
    significant bit first: this is the order in which the constructor
    packs the digits of a string (section 8, scenarios 1 and 4) and the
    order the round trip of section 8 needs. The words
    "most-significant-bit first" of section 6 do not agree with those
    scenarios and are not followed. The contract is silent on characters
    that are no hexadecimal digits; a pair with such a character expands
    to nothing here. *)
Fixpoint hexadecimalToBinaryString (s : string) : string :=
  match s with
  | String c1 (String c2 s') =>
      match hexValue c1, hexValue c2 with
      | Some h, Some l => byteLsbFirst (16 * h + l) (hexadecimalToBinaryString s')
      | _, _ => hexadecimalToBinaryString s'
      end
  | _ => EmptyString
  end.

(** The binary string of a byte array, least significant bit first. *)
Fixpoint binaryStringLsb (a : Uint8Array) : string :=
  match a with
  | [] => EmptyString
  | b :: a' => byteLsbFirst b (binaryStringLsb a')
  end.

End Convert.

Import Convert.

(** ** ProofPath.js *)

Definition BIT_LENGTH : Z := 256.

Record ProofPath : Type := mkProofPath {
  key : Uint8Array;
  bitLength : Z;
  hexKey : string
}.

(** The first argument of the constructor: a string, a [Uint8Array], or a
    value of any other type. *)
Inductive bitsArg : Type :=
| BitsString (s : string)
| BitsUint8Array (a : Uint8Array)
| BitsOther.

Definition ZEROS : string :=
  Nat.iter 8 (fun str => (str ++ str)%string) "0"%string.

Definition strlen (s : string) : Z := Z.of_nat (String.length s).

Definition padWithZeros (str : string) (desiredLength : Z) : string :=
  (str ++ JS.substring0 ZEROS (desiredLength - strlen str))%string.

Definition trimZeros (str : string) (desiredLength : Z) : result string :=
  if strlen str <? desiredLength then Throw Error
  else Ok (JS.substring0 str desiredLength).

Definition getBit (buffer : Uint8Array) (pos : Z) : Z :=
  let byte := JS.floorDiv pos 8 in
  let bitPos := JS.rem pos 8 in
  JS.shr (JS.band (JS.num (u8_get buffer byte)) (JS.shl 1 bitPos)) bitPos.

Definition setBit (buffer : Uint8Array) (pos : Z) (bit : option Z) : Uint8Array :=
  let byte := JS.floorDiv pos 8 in
  let bitPos := JS.rem pos 8 in
  match bit with
  | Some 0 =>
      let mask := 255 - JS.shl 1 bitPos in
      u8_set buffer byte (JS.band (JS.num (u8_get buffer byte)) mask)
  | _ =>
      let mask := JS.shl 1 bitPos in
      u8_set buffer byte (JS.bor (JS.num (u8_get buffer byte)) mask)
  end.

(** [new ProofPath(bits, bitLength)]; [None] for an omitted [bitLength]. *)
Definition new_ProofPath (bits : bitsArg) (len : option Z) : result ProofPath :=
  match bits with
  | BitsString s =>
      match Convert.binaryStringToUint8Array (padWithZeros s BIT_LENGTH) with
      | Ok k =>
          Ok {| key := k;
                bitLength := strlen s;
                hexKey := Convert.uint8ArrayToHexadecimal k |}
      | Throw e => Throw e
      end
  | BitsUint8Array a =>
      if Z.of_nat (length a) =? BIT_LENGTH / 8 then
        Ok {| key := a;
              bitLength := default BIT_LENGTH len;
              hexKey := Convert.uint8ArrayToHexadecimal a |}
      else Throw TypeError
  | BitsOther => Throw TypeError
  end.

Definition isTerminal (this : ProofPath) : bool :=
  bitLength this =? BIT_LENGTH.

Definition bit (this : ProofPath) (pos : Z) : option Z :=
  if (pos >=? bitLength this) || (pos <? 0) then None
  else Some (getBit (key this) pos).

(** The condition of the first loop. *)
Definition bytesCond (this other : ProofPath) (intersectingBits pos : Z) : bool :=
  (pos <? JS.shr intersectingBits 3)
  && bool_decide (u8_get (key this) (JS.shr pos 3) = u8_get (key other) (JS.shr pos 3)).

(** The condition of the second loop. *)
Definition bitsCond (this other : ProofPath) (intersectingBits pos : Z) : bool :=
  (pos <? intersectingBits) && bool_decide (bit this pos = bit other pos).

(** The first loop of [commonPrefixLength]: advance by eight positions
    while the bound allows it and the bytes are the same. *)
Fixpoint advanceBytes (fuel : nat) (this other : ProofPath)
    (intersectingBits pos : Z) : Z :=
  match fuel with
  | O => pos
  | S fuel' =>
      if bytesCond this other intersectingBits pos
      then advanceBytes fuel' this other intersectingBits (pos + 8)
      else pos
  end.

(** The second loop of [commonPrefixLength]: advance by one position while
    the bits are the same. *)
Fixpoint advanceBits (fuel : nat) (this other : ProofPath)
    (intersectingBits pos : Z) : Z :=
  match fuel with
  | O => pos
  | S fuel' =>
      if bitsCond this other intersectingBits pos
      then advanceBits fuel' this other intersectingBits (pos + 1)
      else pos
  end.

(** The loops run on fuel. The first one starts at 0 and stops at the
    latest when [pos] reaches [intersectingBits >> 3], the second one when
    [pos] reaches [intersectingBits]: the distance to the bound is enough
    fuel for each ([advanceBytes_exit] and [advanceBits_exit] below). *)
Definition commonPrefixLength (this other : ProofPath) : Z :=
  let intersectingBits := Z.min (bitLength this) (bitLength other) in
  let pos :=
    advanceBytes (Z.to_nat (JS.shr intersectingBits 3)) this other
                 intersectingBits 0 in
  advanceBits (Z.to_nat (intersectingBits - pos)) this other
              intersectingBits pos.

Definition startsWith (this other : ProofPath) : bool :=
  commonPrefixLength this other =? bitLength other.

(** The result is a number; [None] is [NaN]. *)
Definition compare (this other : ProofPath) : option Z :=
  let thisLen := bitLength this in
  let otherLen := bitLength other in
  let intersectingBits := Z.min thisLen otherLen in
  let pos := commonPrefixLength this other in
  if pos =? intersectingBits then Some (JS.sign (thisLen - otherLen))
  else JS.sub (bit this pos) (bit other pos).

(** The integers [lo, lo + 1, ..., hi - 1], the values a counting loop
    [for (i = lo; i < hi; i++)] goes through. *)
Definition countFrom (lo hi : Z) : list Z :=
  map (fun n => lo + Z.of_nat n) (seq 0 (Z.to_nat (hi - lo))).

(** The first loop of [truncate]: copy the whole bytes. *)
Definition copyBytes (this : ProofPath) (bits : Z) (bytes : Uint8Array)
    : Uint8Array :=
  fold_left (fun bytes i => u8_set bytes i (JS.num (u8_get (key this) i)))
            (countFrom 0 (JS.shr bits 3)) bytes.

(** The second loop of [truncate]: set the bits of the last, partial
    byte. *)
Definition copyBits (this : ProofPath) (bits : Z) (bytes : Uint8Array)
    : Uint8Array :=
  fold_left (fun bytes b => setBit bytes b (bit this b))
            (countFrom (8 * JS.shr bits 3) bits) bytes.

Definition truncate (this : ProofPath) (bits : Z) : result ProofPath :=
  if bits >? bitLength this then Throw TypeError
  else
    let bytes := u8_new (BIT_LENGTH / 8) in
    let bytes := copyBytes this bits bytes in
    let bytes := copyBits this bits bytes in
    new_ProofPath (BitsUint8Array bytes) (Some bits).

Definition commonPrefix (this other : ProofPath) : result ProofPath :=
  let pos := commonPrefixLength this other in
  truncate this pos.

(** [serialize] pushes onto a plain array of numbers; the result is the
    array after the call. A read outside the key pushes [undefined]. *)
Definition serialize (this : ProofPath) (buffer : list (option Z)) : list (option Z) :=
  let buffer :=
    if bitLength this <? 128 then buffer ++ [Some (bitLength this)]
    else buffer ++ [Some (128 + JS.rem (bitLength this) 128);
                    Some (JS.shr (bitLength this) 7)] in
  fold_left (fun buffer pos => buffer ++ [u8_get (key this) pos])
            (countFrom 0 (JS.shr (bitLength this + 7) 3)) buffer.

(** [toJSON] with the hexadecimal-to-binary conversion it calls as an
    argument. *)
Definition toJSON_with (hexToBinary : string -> string) (this : ProofPath)
    : result string :=
  let bits := hexToBinary (hexKey this) in
  trimZeros bits (bitLength this).

Definition toJSON (this : ProofPath) : result string :=
  toJSON_with Convert.hexadecimalToBinaryString this.

(** [toString] with the hexadecimal-to-binary conversion it calls as an
    argument: the first eight digits and an ellipsis for a path of more
    than eight bits, all the digits otherwise, inside [path(...)]. *)
Definition toString_with (hexToBinary : string -> string) (this : ProofPath)
    : result string :=
  let bits := hexToBinary (hexKey this) in
  let bits :=
    if bitLength this >? 8 then
      match trimZeros bits 8 with
      | Ok t => Ok (t ++ "...")%string
      | Throw e => Throw e
      end
    else trimZeros bits (bitLength this) in
  match bits with
  | Ok bits => Ok ("path(" ++ bits ++ ")")%string
  | Throw e => Throw e
  end.

Definition toString (this : ProofPath) : result string :=
  toString_with Convert.hexadecimalToBinaryString this.

(** [ProofPath.BYTE_LENGTH] *)
Definition BYTE_LENGTH : Z := BIT_LENGTH / 8.


(** ** Notions the properties are stated with *)

Definition isByteb (b : Z) : bool := (0 <=? b) && (b <? 256).

(** A path of the data model: a key of 32 bytes and a length between 0 and
    256. *)
Definition wfb (p : ProofPath) : bool :=
  (Z.of_nat (length (key p)) =? 32)
  && forallb isByteb (key p)
  && (0 <=? bitLength p) && (bitLength p <=? BIT_LENGTH).

Definition wf (p : ProofPath) : Prop := wfb p = true.

(** The bit of a byte array at a position: offset [i mod 8] of the byte at
    index [i / 8], offset 0 being the least significant bit. *)
Definition keyBit (k : Uint8Array) (i : Z) : bool :=
  Z.testbit (JS.num (u8_get k (i / 8))) (i mod 8).

(** Every bit of the key at an index from [bitLength] on is zero. *)
Definition zeroPadded (p : ProofPath) : Prop :=
  forall i, 0 <= i -> bitLength p <= i -> getBit (key p) i = 0.

(** The bit-by-bit scan on its own: the second loop of
    [commonPrefixLength], started at position 0. *)
Definition scanBits (this other : ProofPath) : Z :=
  let intersectingBits := Z.min (bitLength this) (bitLength other) in
  advanceBits (Z.to_nat intersectingBits) this other intersectingBits 0.

Fixpoint isBinaryString (s : string) : bool :=
  match s with
  | EmptyString => true
  | String c s' =>
      (Ascii.eqb c "0" || Ascii.eqb c "1") && isBinaryString s'
  end.

(** The inputs the constructor takes: a string of binary digits, or an
    array of 32 bytes. *)
Definition acceptedBits (bits : bitsArg) : bool :=
  match bits with
  | BitsString s => isBinaryString s
  | BitsUint8Array a => Z.of_nat (length a) =? 32
  | BitsOther => false
  end.

(** All elements are bytes. *)
Definition allBytes (a : Uint8Array) : Prop := forallb isByteb a = true.

(** [a] comes before [b]: at the first position [k] where they stop
    agreeing, [a] has ended and [b] has not, or [a] has a 0 and [b] a 1. *)
Definition precedes (a b : ProofPath) : Prop :=
  exists k,
    0 <= k /\ k <= bitLength a /\ k <= bitLength b
    /\ (forall i, 0 <= i < k -> bit a i = bit b i)
    /\ ((k = bitLength a /\ bitLength a < bitLength b)
        \/ (k < bitLength a /\ k < bitLength b
            /\ bit a k = Some 0 /\ bit b k = Some 1)).

(** What holds of the buffer [truncate] fills when the bits of [p] below
    [j] are in place. *)
Definition copiedBelow (p : ProofPath) (j : Z) (bytes : Uint8Array) : Prop :=
  length bytes = 32%nat /\ allBytes bytes
  /\ forall i, 0 <= i -> keyBit bytes i = (i <? j) && keyBit (key p) i.

(** The string of binary digits of a list of bits. *)
Fixpoint stringOfBits (bs : list bool) : string :=
  match bs with
  | [] => EmptyString
  | b :: bs' => String (binaryDigit b) (stringOfBits bs')
  end.

(** The digits of a string, padded with zeros to 256. *)
Definition paddedBits (bs : list bool) : list bool :=
  bs ++ replicate (256 - length bs) false.

(** The key the constructor builds from the digits of a string. *)
Definition keyOfBits (bs : list bool) : Uint8Array :=
  packBytes (Nat.div (length (paddedBits bs) + 7) 8) (paddedBits bs).

(** The path with the given bits in its first byte and the given length;
    [hexKey] is derived from the key as the constructor does. *)
Definition pathOfByte (b len : Z) : ProofPath :=
  let k := b :: replicate 31 0 in
  {| key := k; bitLength := len; hexKey := Convert.uint8ArrayToHexadecimal k |}.

(** The paths of the bits 1010101 and of the bits 101010000000. *)
Definition samplePath7 : ProofPath := pathOfByte 85 7.
Definition samplePath12 : ProofPath := pathOfByte 21 12.

(** A path as the constructor and [truncate] leave it: of the data model,
    zero from its length on, and with the hexadecimal view of its key. *)
Definition canonical (p : ProofPath) : Prop :=
  wf p /\ zeroPadded p /\ hexKey p = uint8ArrayToHexadecimal (key p).

(** [zeroPadded], checked on the bits the key has. *)
Definition zeroPaddedb (p : ProofPath) : bool :=
  forallb (fun i => negb (keyBit (key p) i))
          (countFrom (Z.max 0 (bitLength p)) (8 * Z.of_nat (length (key p)))).

(** A string of [n] zero digits. *)
Definition zeroDigits (n : nat) : string := stringOfBits (replicate n false).

(** A zero-padded path of five bits, 10101, and a path of twelve bits with
    every bit of its first byte set. *)
Definition samplePath5 : ProofPath := pathOfByte 21 5.
Definition samplePathOnes : ProofPath := pathOfByte 255 12.

(** * Properties *)

(** Linear arithmetic with division and remainder by constants. *)
Ltac dlia := Z.to_euclidean_division_equations; lia.

(** ** The 32-bit operators on small numbers *)

Lemma toInt32_small z : - 2 ^ 31 <= z < 2 ^ 31 -> JS.toInt32 z = z.
Proof.
  intros H. unfold JS.toInt32.
  rewrite Z.mod_small by lia. lia.
Qed.

Lemma toInt32_testbit z j : 0 <= j < 32 -> Z.testbit (JS.toInt32 z) j = Z.testbit z j.
Proof.
  intros Hj.
  rewrite <- (Z.mod_pow2_bits_low (JS.toInt32 z) 32 j) by lia.
  rewrite <- (Z.mod_pow2_bits_low z 32 j) by lia.
  f_equal. unfold JS.toInt32.
  rewrite Zminus_mod, Zmod_mod, <- Zminus_mod.
  f_equal. lia.
Qed.

Lemma shr_small a k : 0 <= a < 2 ^ 31 -> 0 <= k < 32 -> JS.shr a k = a / 2 ^ k.
Proof.
  intros Ha Hk. unfold JS.shr.
  rewrite toInt32_small by lia.
  replace (Z.land k 31) with k.
  - apply Z.shiftr_div_pow2. lia.
  - change 31 with (Z.ones 5). rewrite Z.land_ones by lia.
    rewrite Z.mod_small; lia.
Qed.

Lemma shr_3 a : 0 <= a < 2 ^ 31 -> JS.shr a 3 = a / 8.
Proof. intros H. rewrite shr_small by lia. reflexivity. Qed.

Lemma shl_1 k : 0 <= k < 8 -> JS.shl 1 k = 2 ^ k.
Proof.
  intros Hk. unfold JS.shl.
  assert (k = 0 \/ k = 1 \/ k = 2 \/ k = 3 \/ k = 4 \/ k = 5 \/ k = 6 \/ k = 7)
    as Hc by lia.
  intuition subst; reflexivity.
Qed.

Lemma land_pow2 x j : 0 <= j -> Z.land x (2 ^ j) = Z.b2z (Z.testbit x j) * 2 ^ j.
Proof.
  intros Hj. apply Z.bits_inj'. intros n Hn.
  rewrite Z.land_spec, Z.pow2_bits_eqb by lia.
  destruct (Z.testbit x j) eqn:E; cbn [Z.b2z].
  - rewrite Z.mul_1_l, Z.pow2_bits_eqb by lia.
    destruct (Z.eqb_spec j n); subst; [rewrite E|]; auto using andb_false_r.
  - rewrite Z.mul_0_l, Z.bits_0.
    destruct (Z.eqb_spec j n); subst; [rewrite E|]; auto using andb_false_r.
Qed.

(** ** Bits of a byte array *)

Lemma getBit_keyBit k pos : 0 <= pos -> getBit k pos = Z.b2z (keyBit k pos).
Proof.
  intros Hpos. unfold getBit, keyBit, JS.floorDiv, JS.rem.
  rewrite Z.rem_mod_nonneg by lia.
  set (b := JS.num (u8_get k (pos / 8))).
  pose proof (Z.mod_pos_bound pos 8 ltac:(lia)) as Hj.
  set (j := pos mod 8) in *.
  rewrite shl_1 by lia.
  assert (0 < 2 ^ j <= 128) as Hp.
  { split; [apply Z.pow_pos_nonneg; lia|].
    change 128 with (2 ^ 7). apply Z.pow_le_mono_r; lia. }
  unfold JS.band. rewrite (toInt32_small (2 ^ j)) by lia.
  rewrite land_pow2 by lia.
  rewrite toInt32_testbit by lia.
  destruct (Z.testbit b j); cbn [Z.b2z].
  - rewrite shr_small by lia. rewrite Z.mul_1_l. apply Z.div_same. lia.
  - rewrite shr_small by lia. reflexivity.
Qed.

Lemma bit_in_range p pos :
  0 <= pos < bitLength p -> bit p pos = Some (Z.b2z (keyBit (key p) pos)).
Proof.
  intros H. unfold bit.
  destruct (Z.geb_spec pos (bitLength p)); [lia|].
  destruct (Z.ltb_spec pos 0); [lia|].
  cbn. now rewrite getBit_keyBit by lia.
Qed.

Lemma bit_out_of_range p pos :
  bit p pos = None <-> pos < 0 \/ pos >= bitLength p.
Proof.
  unfold bit.
  destruct (Z.geb_spec pos (bitLength p)), (Z.ltb_spec pos 0); cbn;
    split; intros; try lia; try discriminate; auto.
Qed.

(** ** Well-formed paths *)

Lemma isByteb_spec b : isByteb b = true <-> 0 <= b < 256.
Proof. unfold isByteb. lia. Qed.

Lemma wf_length p : wf p -> length (key p) = 32%nat.
Proof.
  unfold wf, wfb. rewrite !andb_true_iff. intros [[[H _] _] _]. lia.
Qed.

Lemma wf_bitLength p : wf p -> 0 <= bitLength p <= 256.
Proof.
  unfold wf, wfb, BIT_LENGTH. rewrite !andb_true_iff. lia.
Qed.

(** ** The loops of [commonPrefixLength] *)

(** With the distance to the bound as fuel, the first loop ends because its
    condition fails, for every input. *)
Lemma advanceBytes_exit a b I fuel pos :
  (Z.to_nat (JS.shr I 3 - pos) <= fuel)%nat ->
  bytesCond a b I (advanceBytes fuel a b I pos) = false.
Proof.
  revert pos. induction fuel as [|fuel IH]; intros pos Hfuel; cbn [advanceBytes].
  - unfold bytesCond. destruct (Z.ltb_spec pos (JS.shr I 3)); [lia | reflexivity].
  - destruct (bytesCond a b I pos) eqn:E; [|exact E].
    apply IH. unfold bytesCond in E. apply andb_true_iff in E as [E _]. lia.
Qed.

(** The same for the second loop. *)
Lemma advanceBits_exit a b I fuel pos :
  (Z.to_nat (I - pos) <= fuel)%nat ->
  bitsCond a b I (advanceBits fuel a b I pos) = false.
Proof.
  revert pos. induction fuel as [|fuel IH]; intros pos Hfuel; cbn [advanceBits].
  - unfold bitsCond. destruct (Z.ltb_spec pos I); [lia | reflexivity].
  - destruct (bitsCond a b I pos) eqn:E; [|exact E].
    apply IH. unfold bitsCond in E. apply andb_true_iff in E as [E _]. lia.
Qed.

(** Both loops of [commonPrefixLength] end because their conditions fail:
    the fuel does not run out. *)
Lemma commonPrefixLength_loops_end a b :
  let I := Z.min (bitLength a) (bitLength b) in
  let pos := advanceBytes (Z.to_nat (JS.shr I 3)) a b I 0 in
  bytesCond a b I pos = false
  /\ bitsCond a b I (commonPrefixLength a b) = false.
Proof.
  split.
  - apply advanceBytes_exit. lia.
  - apply advanceBits_exit. lia.
Qed.

(** More fuel than the distance to the bound changes nothing. *)
Lemma advanceBits_fuel a b I fuel fuel' pos :
  (Z.to_nat (I - pos) <= fuel)%nat -> (Z.to_nat (I - pos) <= fuel')%nat ->
  advanceBits fuel a b I pos = advanceBits fuel' a b I pos.
Proof.
  revert fuel' pos. induction fuel as [|fuel IH]; intros [|fuel'] pos H H';
    cbn [advanceBits]; try reflexivity.
  - unfold bitsCond. destruct (Z.ltb_spec pos I); [lia | reflexivity].
  - unfold bitsCond. destruct (Z.ltb_spec pos I); [lia | reflexivity].
  - destruct (bitsCond a b I pos) eqn:E; [|reflexivity].
    unfold bitsCond in E. apply andb_true_iff in E as [E _].
    apply IH; lia.
Qed.

(** What the second loop returns. *)
Lemma advanceBits_spec a b I fuel pos :
  (Z.to_nat (I - pos) <= fuel)%nat ->
  let r := advanceBits fuel a b I pos in
  pos <= r /\ (r <= I \/ r = pos)
  /\ (forall i, pos <= i < r -> bit a i = bit b i)
  /\ (r < I -> bit a r <> bit b r).
Proof.
  revert pos. induction fuel as [|fuel IH]; intros pos Hfuel; cbn [advanceBits].
  - cbn. repeat split; try lia.
  - unfold bitsCond.
    destruct (Z.ltb_spec pos I) as [Hlt|Hge]; cbn [andb].
    + destruct (bool_decide_reflect (bit a pos = bit b pos)) as [Heq|Hne].
      * specialize (IH (pos + 1) ltac:(lia)). cbn in IH.
        destruct IH as (H1 & H2 & H3 & H4).
        repeat split; try lia; auto.
        intros i Hi. destruct (Z.eq_dec i pos) as [->|]; [exact Heq|].
        apply H3. lia.
      * cbn. repeat split; try lia; auto.
    + cbn. repeat split; try lia.
Qed.

(** What the first loop returns, for lengths of the data model: it stops at
    a position within the intersecting bits, below which the paths agree. *)
Lemma advanceBytes_spec a b I fuel pos :
  0 <= I <= 256 -> I <= bitLength a -> I <= bitLength b ->
  0 <= pos <= I -> pos mod 8 = 0 ->
  (forall i, 0 <= i < pos -> bit a i = bit b i) ->
  let r := advanceBytes fuel a b I pos in
  pos <= r <= I /\ (forall i, 0 <= i < r -> bit a i = bit b i).
Proof.
  intros HI Ha Hb. revert pos.
  induction fuel as [|fuel IH]; intros pos Hpos Hmod Hagree; cbn [advanceBytes].
  - cbn. split; [lia | exact Hagree].
  - unfold bytesCond. rewrite (shr_3 I) by lia.
    destruct (Z.ltb_spec pos (I / 8)) as [Hlt|Hge]; cbn [andb];
      [|cbn; split; [lia | exact Hagree]].
    rewrite (shr_3 pos) by lia.
    destruct (bool_decide_reflect
                (u8_get (key a) (pos / 8) = u8_get (key b) (pos / 8)))
      as [Heq|Hne]; [|cbn; split; [lia | exact Hagree]].
    assert (pos + 8 <= I) as Hle by dlia.
    specialize (IH (pos + 8) ltac:(lia)).
    destruct IH as [H1 H2].
    + rewrite <- Zplus_mod_idemp_l, Hmod. reflexivity.
    + intros i Hi. destruct (Z.lt_ge_cases i pos) as [Hip|Hip];
        [apply Hagree; lia|].
      rewrite !bit_in_range by lia. unfold keyBit.
      replace (i / 8) with (pos / 8) by dlia.
      now rewrite Heq.
    + cbn. split; [lia | exact H2].
Qed.

(** ** The common prefix length *)

Section CommonPrefix.

Variables a b : ProofPath.
Hypothesis wf_a : wf a.
Hypothesis wf_b : wf b.

Lemma intersecting_range :
  0 <= Z.min (bitLength a) (bitLength b) <= 256.
Proof.
  pose proof (wf_bitLength a wf_a). pose proof (wf_bitLength b wf_b). lia.
Qed.

(** The defining property of the result: the paths agree below it, and it
    is the bound or a position where they differ. *)
Lemma commonPrefixLength_spec :
  let k := commonPrefixLength a b in
  0 <= k <= Z.min (bitLength a) (bitLength b)
  /\ (forall i, 0 <= i < k -> bit a i = bit b i)
  /\ (k < Z.min (bitLength a) (bitLength b) -> bit a k <> bit b k).
Proof.
  pose proof intersecting_range as HI.
  unfold commonPrefixLength.
  set (I := Z.min (bitLength a) (bitLength b)) in *.
  set (r1 := advanceBytes _ a b I 0).
  assert (I <= bitLength a /\ I <= bitLength b) as [HIa HIb] by (unfold I; lia).
  assert (forall i, 0 <= i < 0 -> bit a i = bit b i) as Hnone by (intros; lia).
  destruct (advanceBytes_spec a b I (Z.to_nat (JS.shr I 3)) 0
              HI HIa HIb ltac:(lia) eq_refl Hnone) as [Hr1 Hagree1].
  fold r1 in Hr1, Hagree1.
  destruct (advanceBits_spec a b I (Z.to_nat (I - r1)) r1 ltac:(lia))
    as (H1 & H2 & H3 & H4).
  cbn. repeat split; try lia; auto.
  intros i Hi. destruct (Z.lt_ge_cases i r1); [apply Hagree1 | apply H3]; lia.
Qed.

Lemma scanBits_spec :
  let k := scanBits a b in
  0 <= k <= Z.min (bitLength a) (bitLength b)
  /\ (forall i, 0 <= i < k -> bit a i = bit b i)
  /\ (k < Z.min (bitLength a) (bitLength b) -> bit a k <> bit b k).
Proof.
  pose proof intersecting_range as HI.
  unfold scanBits.
  set (I := Z.min (bitLength a) (bitLength b)) in *.
  destruct (advanceBits_spec a b I (Z.to_nat I) 0 ltac:(lia))
    as (H1 & H2 & H3 & H4).
  cbn. repeat split; try lia; auto.
Qed.

(** The property determines the result. *)
Lemma prefix_length_unique k k' :
  0 <= k <= Z.min (bitLength a) (bitLength b) ->
  (forall i, 0 <= i < k -> bit a i = bit b i) ->
  (k < Z.min (bitLength a) (bitLength b) -> bit a k <> bit b k) ->
  0 <= k' <= Z.min (bitLength a) (bitLength b) ->
  (forall i, 0 <= i < k' -> bit a i = bit b i) ->
  k' <= k.
Proof.
  intros Hk Hagree Hdiff Hk' Hagree'.
  destruct (Z.le_gt_cases k' k) as [|Hgt]; [assumption|].
  exfalso. apply Hdiff; [lia|]. apply Hagree'. lia.
Qed.

Lemma commonPrefixLength_unique k :
  0 <= k <= Z.min (bitLength a) (bitLength b) ->
  (forall i, 0 <= i < k -> bit a i = bit b i) ->
  (k < Z.min (bitLength a) (bitLength b) -> bit a k <> bit b k) ->
  commonPrefixLength a b = k.
Proof.
  intros Hk Hagree Hdiff.
  destruct commonPrefixLength_spec as (H1 & H2 & H3).
  apply Z.le_antisymm.
  - apply (prefix_length_unique k); auto.
  - apply (prefix_length_unique (commonPrefixLength a b)); auto.
Qed.

End CommonPrefix.

Lemma commonPrefixLength_sym a b :
  wf a -> wf b -> commonPrefixLength a b = commonPrefixLength b a.
Proof.
  intros Ha Hb.
  destruct (commonPrefixLength_spec b a Hb Ha) as (H1 & H2 & H3).
  apply commonPrefixLength_unique; auto.
  - lia.
  - intros i Hi. symmetry. auto.
  - intros Hlt Heq. apply H3; [lia | auto].
Qed.

(** ** The order *)

Lemma bit_01 p i :
  0 <= i < bitLength p -> bit p i = Some 0 \/ bit p i = Some 1.
Proof.
  intros H. rewrite bit_in_range by lia. destruct (keyBit _ _); auto.
Qed.

(** The value of [compare] on paths of the data model. *)
Lemma compare_cases a b :
  wf a -> wf b ->
  let k := commonPrefixLength a b in
  (k = Z.min (bitLength a) (bitLength b)
   /\ compare a b = Some (Z.sgn (bitLength a - bitLength b)))
  \/ (k < bitLength a /\ k < bitLength b
      /\ bit a k = Some 0 /\ bit b k = Some 1 /\ compare a b = Some (-1))
  \/ (k < bitLength a /\ k < bitLength b
      /\ bit a k = Some 1 /\ bit b k = Some 0 /\ compare a b = Some 1).
Proof.
  intros Ha Hb.
  destruct (commonPrefixLength_spec a b Ha Hb) as (H1 & H2 & H3).
  unfold compare, JS.sign. cbn zeta.
  destruct (Z.eqb_spec (commonPrefixLength a b)
                       (Z.min (bitLength a) (bitLength b))) as [E|E].
  - left. auto.
  - right.
    assert (commonPrefixLength a b < Z.min (bitLength a) (bitLength b)) as Hlt by lia.
    specialize (H3 Hlt).
    destruct (bit_01 a (commonPrefixLength a b) ltac:(lia)) as [Ea|Ea],
             (bit_01 b (commonPrefixLength a b) ltac:(lia)) as [Eb|Eb];
      try (exfalso; apply H3; congruence).
    + left. rewrite Ea, Eb. repeat split; auto; lia.
    + right. rewrite Ea, Eb. repeat split; auto; lia.
Qed.

Lemma compare_defined a b :
  wf a -> wf b -> exists x, compare a b = Some x /\ -1 <= x <= 1.
Proof.
  intros Ha Hb.
  destruct (compare_cases a b Ha Hb) as [(_ & E)|[(_ & _ & _ & _ & E)|(_ & _ & _ & _ & E)]];
    rewrite E; eexists; (split; [reflexivity | lia]).
Qed.

Lemma compare_neg_precedes a b :
  wf a -> wf b ->
  ((exists x, compare a b = Some x /\ x < 0) <-> precedes a b).
Proof.
  intros Ha Hb.
  pose proof (wf_bitLength a Ha) as La. pose proof (wf_bitLength b Hb) as Lb.
  destruct (commonPrefixLength_spec a b Ha Hb) as (H1 & H2 & H3).
  split.
  - intros (x & Hx & Hneg).
    exists (commonPrefixLength a b).
    destruct (compare_cases a b Ha Hb)
      as [(E1 & E2)|[(E1 & E2 & E3 & E4 & E5)|(E1 & E2 & E3 & E4 & E5)]].
    + rewrite E2 in Hx. injection Hx as <-.
      repeat split; try lia; auto.
    + repeat split; try lia; auto.
    + rewrite E5 in Hx. injection Hx as <-. lia.
  - intros (k & Hk0 & Hka & Hkb & Hagree & Hcase).
    assert (commonPrefixLength a b = k) as Ek.
    { apply commonPrefixLength_unique; auto; [lia|].
      intros Hlt. destruct Hcase as [?|(_ & _ & E0 & E1)]; [lia | congruence]. }
    destruct (compare_cases a b Ha Hb)
      as [(E1 & E2)|[(E1 & E2 & E3 & E4 & E5)|(E1 & E2 & E3 & E4 & E5)]].
    + exists (Z.sgn (bitLength a - bitLength b)). split; [assumption|].
      destruct Hcase as [?|?]; lia.
    + exists (-1). split; [assumption | lia].
    + exfalso. rewrite Ek in *.
      destruct Hcase as [?|(_ & _ & E0 & _)]; [lia | congruence].
Qed.

Lemma precedes_trans a b c : precedes a b -> precedes b c -> precedes a c.
Proof.
  intros (k1 & H10 & H1a & H1b & Hag1 & Hc1) (k2 & H20 & H2b & H2c & Hag2 & Hc2).
  destruct (Z.lt_trichotomy k1 k2) as [Hlt|[Heq|Hgt]].
  - exists k1. repeat split; try lia.
    + intros i Hi. rewrite Hag1, Hag2 by lia. reflexivity.
    + destruct Hc1 as [(E & L)|(L1 & L2 & E0 & E1)].
      * left. lia.
      * right. repeat split; try lia; auto. rewrite <- Hag2 by lia. exact E1.
  - subst k2. exists k1. repeat split; try lia.
    + intros i Hi. rewrite Hag1, Hag2 by lia. reflexivity.
    + destruct Hc1 as [(E & L)|(L1 & L2 & E0 & E1)],
               Hc2 as [(E' & L')|(L1' & L2' & E0' & E1')]; try lia.
      congruence.
  - exists k2. repeat split; try lia.
    + intros i Hi. rewrite Hag1, Hag2 by lia. reflexivity.
    + destruct Hc2 as [(E & L)|(L1 & L2 & E0 & E1)]; [lia|].
      right. repeat split; try lia; auto. rewrite Hag1 by lia. exact E0.
Qed.

(** C4. For two paths of the data model the two-phase
    [commonPrefixLength] returns what the bit-by-bit scan alone returns,
    and that is the largest [k] up to the smaller length such that the
    paths have the same bits below [k]: the position of the first
    mismatch, or the bound when there is none. *)
Theorem commonPrefixLength_is_bit_scan (a b : ProofPath) :
  wf a -> wf b ->
  let I := Z.min (bitLength a) (bitLength b) in
  let k := commonPrefixLength a b in
  k = scanBits a b
  /\ 0 <= k <= I
  /\ (forall i, 0 <= i < k -> bit a i = bit b i)
  /\ (k < I -> bit a k <> bit b k)
  /\ (forall k', 0 <= k' <= I ->
                 (forall i, 0 <= i < k' -> bit a i = bit b i) -> k' <= k).
Proof.
  intros Ha Hb I k.
  destruct (commonPrefixLength_spec a b Ha Hb) as (H1 & H2 & H3).
  destruct (scanBits_spec a b Ha Hb) as (S1 & S2 & S3).
  repeat split; try (subst I k; lia); auto.
  - subst k. apply commonPrefixLength_unique; auto.
  - intros k' Hk' Hagree.
    apply (prefix_length_unique a b k k'); auto.
Qed.

Lemma commonPrefixLength_is_bit_scan_witness :
  wf samplePath7 /\ wf samplePath12
  /\ commonPrefixLength samplePath7 samplePath12
     = scanBits samplePath7 samplePath12
  /\ commonPrefixLength samplePath7 samplePath12 = 6.
Proof.
  split; [reflexivity|]. split; [reflexivity|].
  split; [|reflexivity].
  apply (commonPrefixLength_is_bit_scan samplePath7 samplePath12); reflexivity.
Defined.

(** C3. With [pos] the common prefix length of two paths of the data model
    and [I] the smaller of their lengths: when [pos = I], [compare] is the
    sign of the difference of the lengths; otherwise both paths have a bit
    at [pos], the bits differ, and [compare] is negative exactly when the
    first path has 0 and the second has 1 there, positive exactly in the
    opposite case. *)
Theorem compare_by_length_then_bit (a b : ProofPath) :
  wf a -> wf b ->
  let pos := commonPrefixLength a b in
  let I := Z.min (bitLength a) (bitLength b) in
  (pos = I -> compare a b = Some (Z.sgn (bitLength a - bitLength b)))
  /\ (pos <> I ->
      exists x y r,
        bit a pos = Some x /\ bit b pos = Some y /\ compare a b = Some r
        /\ (r < 0 <-> x = 0 /\ y = 1)
        /\ (r > 0 <-> x = 1 /\ y = 0)
        /\ r <> 0).
Proof.
  intros Ha Hb pos I.
  destruct (compare_cases a b Ha Hb)
    as [(E1 & E2)|[(E1 & E2 & E3 & E4 & E5)|(E1 & E2 & E3 & E4 & E5)]];
    fold pos in E1; try fold pos in E2, E3, E4.
  - split; [auto | intros Hne; subst I; lia].
  - split; [intros He; subst I; lia|]. intros _.
    exists 0, 1, (-1). repeat split; auto; lia.
  - split; [intros He; subst I; lia|]. intros _.
    exists 1, 0, 1. repeat split; auto; lia.
Qed.

Lemma compare_by_length_then_bit_witness :
  wf (pathOfByte 1 2) /\ wf (pathOfByte 3 2)
  /\ exists r, compare (pathOfByte 1 2) (pathOfByte 3 2) = Some r /\ r < 0.
Proof.
  split; [reflexivity|]. split; [reflexivity|].
  destruct (compare_by_length_then_bit (pathOfByte 1 2) (pathOfByte 3 2)
              eq_refl eq_refl) as [_ H].
  destruct H as (x & y & r & Hx & Hy & Hr & Hneg & _); [discriminate|].
  exists r. split; [exact Hr|].
  apply Hneg. vm_compute in Hx, Hy. split; congruence.
Defined.

(** C2. On paths of the data model [compare] returns a number [x] for
    which exactly one of [x < 0], [x = 0], [x > 0] holds; a path compares
    equal to itself; swapping the arguments negates the result; and
    "negative" is transitive. *)
Theorem compare_strict_total_order (a b c : ProofPath) :
  wf a -> wf b -> wf c ->
  exists x y,
    compare a b = Some x /\ compare b a = Some y
    /\ ((x < 0 /\ x <> 0 /\ ~ x > 0)
        \/ (~ x < 0 /\ x = 0 /\ ~ x > 0)
        \/ (~ x < 0 /\ x <> 0 /\ x > 0))
    /\ compare a a = Some 0
    /\ x = - y
    /\ (forall z, x < 0 -> compare b c = Some z -> z < 0 ->
                  exists w, compare a c = Some w /\ w < 0).
Proof.
  intros Ha Hb Hc.
  pose proof (wf_bitLength a Ha) as La. pose proof (wf_bitLength b Hb) as Lb.
  destruct (compare_defined a b Ha Hb) as (x & Ex & Hx).
  destruct (compare_defined b a Hb Ha) as (y & Ey & Hy).
  exists x, y. repeat apply conj; auto.
  - lia.
  - assert (commonPrefixLength a a = bitLength a) as Ek.
    { apply commonPrefixLength_unique; auto; lia. }
    destruct (compare_cases a a Ha Ha)
      as [(E1 & E2)|[(E1 & E2 & E3 & E4 & E5)|(E1 & E2 & E3 & E4 & E5)]];
      try congruence.
    rewrite E2. f_equal. lia.
  - pose proof (commonPrefixLength_sym a b Ha Hb) as Es.
    destruct (compare_cases a b Ha Hb)
      as [(E1 & E2)|[(E1 & E2 & E3 & E4 & E5)|(E1 & E2 & E3 & E4 & E5)]],
      (compare_cases b a Hb Ha)
      as [(F1 & F2)|[(F1 & F2 & F3 & F4 & F5)|(F1 & F2 & F3 & F4 & F5)]];
      rewrite <- ?Es in *; try congruence; try lia;
      repeat match goal with
             | H : compare ?p ?q = Some ?u, H' : compare ?p ?q = Some ?v |- _ =>
                 assert (u = v) by congruence; clear H'
             end; lia.
  - intros z Hxneg Ez Hzneg.
    apply compare_neg_precedes; auto.
    apply (precedes_trans a b c); apply compare_neg_precedes; eauto.
Qed.

Lemma compare_strict_total_order_witness :
  wf (pathOfByte 0 1) /\ wf (pathOfByte 1 1) /\ wf (pathOfByte 3 2)
  /\ compare (pathOfByte 0 1) (pathOfByte 0 1) = Some 0
  /\ exists w, compare (pathOfByte 0 1) (pathOfByte 3 2) = Some w /\ w < 0.
Proof.
  split; [reflexivity|]. split; [reflexivity|]. split; [reflexivity|].
  destruct (compare_strict_total_order
              (pathOfByte 0 1) (pathOfByte 1 1) (pathOfByte 3 2)
              eq_refl eq_refl eq_refl)
    as (x & y & Ex & Ey & _ & Er & _ & Ht).
  split; [exact Er|].
  apply (Ht (-1)).
  - vm_compute in Ex. injection Ex as <-. reflexivity.
  - reflexivity.
  - reflexivity.
Defined.

(** ** Counting loops *)

Lemma countFrom_snoc lo n :
  countFrom lo (lo + Z.of_nat (S n))
  = countFrom lo (lo + Z.of_nat n) ++ [lo + Z.of_nat n].
Proof.
  unfold countFrom.
  replace (Z.to_nat (lo + Z.of_nat (S n) - lo)) with (S n) by lia.
  replace (Z.to_nat (lo + Z.of_nat n - lo)) with n by lia.
  rewrite seq_S, map_app. reflexivity.
Qed.

(** The rule of a counting loop: a property that holds at the start and
    that every step carries from [i] to [i + 1] holds at the end. *)
Lemma countFrom_loop {St : Type} (f : St -> Z -> St) (P : Z -> St -> Prop) lo hi s :
  lo <= hi ->
  P lo s ->
  (forall i t, lo <= i < hi -> P i t -> P (i + 1) (f t i)) ->
  P hi (fold_left f (countFrom lo hi) s).
Proof.
  intros Hle Hstart Hstep.
  replace hi with (lo + Z.of_nat (Z.to_nat (hi - lo))) by lia.
  assert (Z.to_nat (hi - lo) <= Z.to_nat (hi - lo))%nat as Hn by lia.
  revert Hn. generalize (Z.to_nat (hi - lo)) at 1 3 4 as n.
  induction n as [|n IH]; intros Hn.
  - replace (lo + Z.of_nat 0) with lo by lia.
    unfold countFrom. replace (Z.to_nat (lo - lo)) with 0%nat by lia.
    exact Hstart.
  - rewrite countFrom_snoc, fold_left_app. cbn [fold_left].
    replace (lo + Z.of_nat (S n)) with (lo + Z.of_nat n + 1) by lia.
    apply Hstep; [lia|]. apply IH. lia.
Qed.

(** ** Reading and writing bytes *)

Lemma allBytes_lookup a i b : allBytes a -> a !! i = Some b -> 0 <= b < 256.
Proof.
  unfold allBytes. rewrite forallb_forall. intros H Hi.
  apply isByteb_spec, H, list_elem_of_In, list_elem_of_lookup. eauto.
Qed.

Lemma allBytes_intro a :
  (forall i b, a !! i = Some b -> 0 <= b < 256) -> allBytes a.
Proof.
  intros H. unfold allBytes. apply forallb_forall. intros b Hb.
  apply list_elem_of_In, list_elem_of_lookup in Hb as [i Hi].
  apply isByteb_spec. eauto.
Qed.

Lemma u8_set_length a i v : length (u8_set a i v) = length a.
Proof. unfold u8_set. destruct (i <? 0); [reflexivity | apply length_insert]. Qed.

Lemma u8_get_set_ne a i j v : i <> j -> u8_get (u8_set a i v) j = u8_get a j.
Proof.
  intros Hne. unfold u8_get, u8_set.
  destruct (Z.ltb_spec j 0); [reflexivity|].
  destruct (Z.ltb_spec i 0); [reflexivity|].
  apply list_lookup_insert_ne. lia.
Qed.

Lemma u8_get_set_eq a i v :
  0 <= i < Z.of_nat (length a) -> u8_get (u8_set a i v) i = Some (v mod 256).
Proof.
  intros Hi. unfold u8_get, u8_set.
  destruct (Z.ltb_spec i 0); [lia|].
  apply list_lookup_insert_eq. lia.
Qed.

Lemma u8_set_allBytes a i v : allBytes a -> allBytes (u8_set a i v).
Proof.
  intros Ha. apply allBytes_intro. intros j b Hj.
  unfold u8_set in Hj. revert Hj. destruct (Z.ltb_spec i 0); intros Hj.
  - eapply allBytes_lookup; eauto.
  - destruct (decide (Z.to_nat i = j)) as [<-|Hne].
    + destruct (decide (Z.to_nat i < length a)%nat) as [Hlt|Hge].
      * rewrite list_lookup_insert_eq in Hj by lia. injection Hj as <-.
        apply Z.mod_pos_bound. lia.
      * rewrite list_insert_ge in Hj by lia. eapply allBytes_lookup; eauto.
    + rewrite list_lookup_insert_ne in Hj by assumption.
      eapply allBytes_lookup; eauto.
Qed.

Lemma u8_new_get n i : JS.num (u8_get (u8_new n) i) = 0.
Proof.
  unfold u8_get, u8_new. destruct (i <? 0); [reflexivity|].
  destruct (replicate (Z.to_nat n) 0 !! Z.to_nat i) as [b|] eqn:E; [|reflexivity].
  apply lookup_replicate in E as [-> _]. reflexivity.
Qed.

Lemma u8_new_allBytes n : allBytes (u8_new n).
Proof.
  apply allBytes_intro. intros i b E.
  apply lookup_replicate in E as [-> _]. lia.
Qed.

Lemma keyBit_new n i : keyBit (u8_new n) i = false.
Proof. unfold keyBit. rewrite u8_new_get. apply Z.bits_0. Qed.

(** Beyond the end of the array every bit reads as zero. *)
Lemma keyBit_beyond k i : 8 * Z.of_nat (length k) <= i -> keyBit k i = false.
Proof.
  intros Hi. unfold keyBit, u8_get.
  destruct (Z.ltb_spec (i / 8) 0); [apply Z.bits_0|].
  rewrite lookup_ge_None_2 by dlia. apply Z.bits_0.
Qed.

(** Writing a byte changes the bits of that byte, and no other. *)
Lemma keyBit_set_other a j v i :
  i / 8 <> j -> keyBit (u8_set a j v) i = keyBit a i.
Proof.
  intros Hne. unfold keyBit. rewrite u8_get_set_ne by congruence. reflexivity.
Qed.

Lemma keyBit_set_same a j v i :
  0 <= j < Z.of_nat (length a) -> i / 8 = j ->
  keyBit (u8_set a j v) i = Z.testbit v (i mod 8).
Proof.
  intros Hj <-. unfold keyBit. rewrite u8_get_set_eq by assumption.
  cbn. change 256 with (2 ^ 8). apply Z.mod_pow2_bits_low. dlia.
Qed.

(** ** Setting a bit *)

Lemma small_cases k : 0 <= k < 8 ->
  k = 0 \/ k = 1 \/ k = 2 \/ k = 3 \/ k = 4 \/ k = 5 \/ k = 6 \/ k = 7.
Proof. lia. Qed.

Lemma clear_mask_testbit k j :
  0 <= k < 8 -> 0 <= j < 8 -> Z.testbit (255 - 2 ^ k) j = negb (j =? k).
Proof.
  intros Hk Hj.
  destruct (small_cases k Hk) as [->|[->|[->|[->|[->|[->|[->| ->]]]]]]];
    destruct (small_cases j Hj) as [->|[->|[->|[->|[->|[->|[->| ->]]]]]]];
    reflexivity.
Qed.

Lemma pow2_byte_range k : 0 <= k < 8 -> 0 < 2 ^ k <= 128.
Proof.
  intros Hk. split; [apply Z.pow_pos_nonneg; lia|].
  change 128 with (2 ^ 7). apply Z.pow_le_mono_r; lia.
Qed.

(** [setBit] with a bit value writes that bit and keeps the others. *)
Lemma keyBit_setBit buf pos v i :
  0 <= pos < 8 * Z.of_nat (length buf) -> 0 <= i ->
  keyBit (setBit buf pos (Some (Z.b2z v))) i
  = if i =? pos then v else keyBit buf i.
Proof.
  intros Hpos Hi.
  assert (0 <= pos / 8 < Z.of_nat (length buf)) as Hbyte by dlia.
  pose proof (Z.mod_pos_bound pos 8 ltac:(lia)) as Hk.
  pose proof (Z.mod_pos_bound i 8 ltac:(lia)) as Hj.
  pose proof (pow2_byte_range (pos mod 8) Hk) as Hp.
  unfold setBit, JS.floorDiv, JS.rem.
  rewrite Z.rem_mod_nonneg by lia.
  rewrite shl_1 by lia.
  destruct (Z.eq_dec (i / 8) (pos / 8)) as [Ebyte|Ebyte].
  - assert ((i =? pos) = (i mod 8 =? pos mod 8)) as ->.
    { destruct (Z.eqb_spec i pos), (Z.eqb_spec (i mod 8) (pos mod 8));
        try reflexivity; exfalso; dlia. }
    destruct v; cbn [Z.b2z].
    + rewrite keyBit_set_same by auto.
      unfold JS.bor. rewrite (toInt32_small (2 ^ _)) by lia.
      rewrite Z.lor_spec, toInt32_testbit, Z.pow2_bits_eqb by lia.
      rewrite (Z.eqb_sym (pos mod 8)).
      destruct (i mod 8 =? pos mod 8); [apply orb_true_r|].
      rewrite orb_false_r. unfold keyBit. now rewrite Ebyte.
    + rewrite keyBit_set_same by auto.
      unfold JS.band. rewrite (toInt32_small (255 - _)) by lia.
      rewrite Z.land_spec, toInt32_testbit, clear_mask_testbit by lia.
      destruct (i mod 8 =? pos mod 8); [apply andb_false_r|].
      rewrite andb_true_r. unfold keyBit. now rewrite Ebyte.
  - destruct (Z.eqb_spec i pos) as [->|_]; [congruence|].
    destruct v; cbn [Z.b2z]; now rewrite keyBit_set_other by assumption.
Qed.

Lemma setBit_length buf pos v : length (setBit buf pos v) = length buf.
Proof.
  unfold setBit. destruct v as [[| |]|]; apply u8_set_length.
Qed.

Lemma setBit_allBytes buf pos v : allBytes buf -> allBytes (setBit buf pos v).
Proof.
  intros H. unfold setBit. destruct v as [[| |]|]; now apply u8_set_allBytes.
Qed.

(** ** The loops of [truncate] *)

Section Truncate.

Variable p : ProofPath.
Variable n : Z.
Hypothesis n_range : 0 <= n <= bitLength p.
Hypothesis n_max : n <= 256.

Lemma copyBytes_spec :
  copiedBelow p (8 * (n / 8)) (copyBytes p n (u8_new (BIT_LENGTH / 8))).
Proof.
  unfold copyBytes. rewrite shr_3 by lia.
  apply (countFrom_loop _ (fun j bytes => copiedBelow p (8 * j) bytes)).
  - dlia.
  - repeat split.
    + intros i Hi. rewrite keyBit_new.
      destruct (Z.ltb_spec i (8 * 0)); [lia | reflexivity].
  - intros j bytes Hj (Hlen & Hall & Hbits).
    repeat split.
    + now rewrite u8_set_length.
    + now apply u8_set_allBytes.
    + intros i Hi.
      destruct (Z.eq_dec (i / 8) j) as [E|E].
      * rewrite keyBit_set_same by (auto; dlia).
        destruct (Z.ltb_spec i (8 * (j + 1))); [|dlia].
        unfold keyBit. now rewrite E.
      * rewrite keyBit_set_other by assumption. rewrite Hbits by assumption.
        f_equal.
        destruct (Z.ltb_spec i (8 * j)), (Z.ltb_spec i (8 * (j + 1)));
          try reflexivity; exfalso; dlia.
Qed.

Lemma copyBits_spec :
  copiedBelow p n (copyBits p n (copyBytes p n (u8_new (BIT_LENGTH / 8)))).
Proof.
  unfold copyBits. rewrite shr_3 by lia.
  apply (countFrom_loop _ (copiedBelow p)).
  - dlia.
  - apply copyBytes_spec.
  - intros j bytes Hj (Hlen & Hall & Hbits).
    repeat split.
    + now rewrite setBit_length.
    + now apply setBit_allBytes.
    + intros i Hi.
      rewrite bit_in_range by dlia.
      rewrite keyBit_setBit by (try rewrite Hlen; dlia).
      destruct (Z.eqb_spec i j) as [->|Hne].
      * destruct (Z.ltb_spec j (j + 1)); [reflexivity | lia].
      * rewrite Hbits by assumption. f_equal.
        destruct (Z.ltb_spec i j), (Z.ltb_spec i (j + 1));
          try reflexivity; exfalso; lia.
Qed.

(** [truncate] succeeds and returns the path with the buffer of the two
    loops and the requested length. *)
Lemma truncate_ok :
  exists q,
    truncate p n = Ok q
    /\ bitLength q = n
    /\ copiedBelow p n (key q).
Proof.
  pose proof copyBits_spec as Hc.
  unfold truncate.
  destruct (Z.gtb_spec n (bitLength p)); [lia|].
  cbn zeta. set (bytes := copyBits _ _ _) in *.
  destruct Hc as (Hlen & Hc).
  unfold new_ProofPath. rewrite Hlen. cbn [Z.of_nat].
  eexists. split; [reflexivity|]. cbn. repeat split; tauto.
Qed.

End Truncate.

Lemma wf_intro p :
  length (key p) = 32%nat -> allBytes (key p) -> 0 <= bitLength p <= 256 -> wf p.
Proof.
  intros Hlen Hall Hrange. unfold wf, wfb, BIT_LENGTH.
  rewrite !andb_true_iff. repeat split; try lia. exact Hall.
Qed.

(** A truncation within the length of a path of the data model: the
    result, its length, its bits and its padding. *)
Lemma truncate_in_range p n :
  wf p -> 0 <= n <= bitLength p ->
  exists q,
    truncate p n = Ok q
    /\ bitLength q = n
    /\ wf q
    /\ (forall i, 0 <= i < n -> bit q i = bit p i)
    /\ (forall i, n <= i -> getBit (key q) i = 0).
Proof.
  intros Hp Hn. pose proof (wf_bitLength p Hp) as Lp.
  destruct (truncate_ok p n Hn ltac:(lia)) as (q & Eq & Elen & Hlen & Hall & Hbits).
  exists q. repeat split; auto.
  - apply wf_intro; auto. lia.
  - intros i Hi. rewrite !bit_in_range by lia. rewrite Hbits by lia.
    destruct (Z.ltb_spec i n); [reflexivity | lia].
  - intros i Hi. rewrite getBit_keyBit by lia. rewrite Hbits by lia.
    destruct (Z.ltb_spec i n); [lia | reflexivity].
Qed.

(** C5. Truncating a path of the data model to a length between 0 and its
    own succeeds with a path of that length that has the bits of the
    original below the new length and a key in which every bit from the new
    length on is zero; a length above the path's own raises the
    [TypeError] that is the invalid-operation error. *)
Theorem truncate_spec (p : ProofPath) (n : Z) :
  wf p ->
  (0 <= n <= bitLength p ->
   exists q,
     truncate p n = Ok q
     /\ bitLength q = n
     /\ wf q
     /\ (forall i, 0 <= i < n -> bit q i = bit p i)
     /\ (forall i, n <= i -> getBit (key q) i = 0))
  /\ (n > bitLength p -> truncate p n = Throw TypeError).
Proof.
  intros Hp. split.
  - apply truncate_in_range. assumption.
  - intros Hn. unfold truncate.
    destruct (Z.gtb_spec n (bitLength p)); [reflexivity | lia].
Qed.

Lemma truncate_spec_witness :
  wf samplePath7
  /\ (exists q, truncate samplePath7 3 = Ok q /\ bitLength q = 3
                /\ key q = key (pathOfByte 5 3))
  /\ truncate samplePath7 8 = Throw TypeError.
Proof.
  destruct (truncate_spec samplePath7 3 eq_refl) as [Hin _].
  destruct (truncate_spec samplePath7 8 eq_refl) as [_ Hout].
  split; [reflexivity|]. split.
  - destruct Hin as (q & Eq & Elen & _); [cbn; lia|].
    exists q. repeat split; auto.
    vm_compute in Eq. injection Eq as <-. reflexivity.
  - apply Hout. cbn. lia.
Defined.

(** C10. A truncation of a path of the data model is a prefix of the
    path. *)
Theorem startsWith_truncate (p : ProofPath) (k : Z) :
  wf p -> 0 <= k <= bitLength p ->
  exists q, truncate p k = Ok q /\ startsWith p q = true.
Proof.
  intros Hp Hk. pose proof (wf_bitLength p Hp) as Lp.
  destruct (truncate_in_range p k Hp Hk) as (q & Eq & Elen & Hq & Hbits & _).
  exists q. split; [assumption|].
  unfold startsWith. apply Z.eqb_eq. rewrite Elen.
  apply commonPrefixLength_unique; auto.
  - lia.
  - intros i Hi. symmetry. apply Hbits. lia.
  - lia.
Qed.

Lemma startsWith_truncate_witness :
  wf samplePath7 /\ 0 <= 3 <= bitLength samplePath7
  /\ exists q, truncate samplePath7 3 = Ok q /\ startsWith samplePath7 q = true.
Proof.
  split; [reflexivity|]. split; [cbn; lia|].
  apply (startsWith_truncate samplePath7 3); [reflexivity | cbn; lia].
Defined.

(** ** Serialization *)

Lemma push_loop {A : Type} (f : Z -> A) (l : list Z) (buffer : list A) :
  fold_left (fun buffer pos => buffer ++ [f pos]) l buffer = buffer ++ map f l.
Proof.
  revert buffer. induction l as [|x l IH]; intros buffer; cbn.
  - now rewrite app_nil_r.
  - rewrite IH, <- app_assoc. reflexivity.
Qed.

Lemma u8_get_prefix (k : Uint8Array) (m : nat) :
  (m <= length k)%nat ->
  map (u8_get k) (countFrom 0 (Z.of_nat m)) = map Some (take m k).
Proof.
  induction m as [|m IH]; intros Hm; [reflexivity|].
  change (Z.of_nat (S m)) with (0 + Z.of_nat (S m)).
  rewrite countFrom_snoc, !Z.add_0_l. rewrite map_app, IH by lia.
  destruct (lookup_lt_is_Some_2 k m ltac:(lia)) as [x Hx].
  rewrite (take_S_r k m x Hx), map_app. f_equal. cbn.
  unfold u8_get. destruct (Z.ltb_spec (Z.of_nat m) 0); [lia|].
  now rewrite Nat2Z.id, Hx.
Qed.

(** C6. [serialize] on a path of the data model leaves what is in the
    buffer and appends the length, one byte when it is below 128 and the
    two bytes [128 + length mod 128] and [length >> 7] otherwise, and then
    the first [ceil(length / 8)] bytes of the key. *)
Theorem serialize_spec (p : ProofPath) (buffer : list (option Z)) :
  wf p ->
  let len := bitLength p in
  let count := (len + 7) / 8 in
  8 * (count - 1) < len <= 8 * count
  /\ serialize p buffer
     = buffer
       ++ (if len <? 128 then [Some len]
           else [Some (128 + len mod 128); Some (Z.shiftr len 7)])
       ++ map Some (take (Z.to_nat count) (key p)).
Proof.
  intros Hp len count.
  pose proof (wf_bitLength p Hp) as Lp. pose proof (wf_length p Hp) as Hlen.
  fold len in Lp. split; [subst count; dlia|].
  unfold serialize. fold len. rewrite push_loop.
  rewrite (shr_3 (len + 7)) by lia. fold count.
  rewrite <- (Z2Nat.id count) at 1 by (subst count; dlia).
  rewrite u8_get_prefix by (subst count; dlia).
  destruct (Z.ltb_spec len 128).
  - now rewrite <- app_assoc.
  - unfold JS.rem. rewrite Z.rem_mod_nonneg by lia.
    rewrite (shr_small len 7) by lia. rewrite Z.shiftr_div_pow2 by lia.
    now rewrite <- app_assoc.
Qed.

Lemma serialize_spec_witness :
  wf samplePath7
  /\ serialize samplePath7 [Some 9] = [Some 9; Some 7; Some 85].
Proof.
  split; [reflexivity|].
  destruct (serialize_spec samplePath7 [Some 9] eq_refl) as [_ E].
  rewrite E. reflexivity.
Defined.

(** ** The string conversions *)

Lemma testbit_byteOfBits l j :
  0 <= j -> Z.testbit (byteOfBits l) j = default false (l !! Z.to_nat j).
Proof.
  revert j. induction l as [|b l IH]; intros j Hj; cbn [byteOfBits].
  - rewrite Z.bits_0. reflexivity.
  - rewrite Z.add_comm.
    destruct (Z.eq_dec j 0) as [->|Hne].
    + rewrite Z.testbit_0_r. reflexivity.
    + replace j with (Z.succ (j - 1)) by lia.
      rewrite Z.testbit_succ_r, IH by lia.
      replace (Z.to_nat (Z.succ (j - 1))) with (S (Z.to_nat (j - 1))) by lia.
      reflexivity.
Qed.

Lemma byteOfBits_range l : (length l <= 8)%nat -> 0 <= byteOfBits l < 2 ^ Z.of_nat (length l).
Proof.
  induction l as [|b l IH]; intros Hl; cbn [byteOfBits length].
  - cbn. lia.
  - cbn [length] in Hl. specialize (IH ltac:(lia)).
    rewrite Nat2Z.inj_succ, Z.pow_succ_r by lia.
    destruct b; cbn [Z.b2z]; lia.
Qed.

Lemma byteOfBits_byte l : 0 <= byteOfBits (take 8 l) < 256.
Proof.
  pose proof (length_take_le l 8) as Hlen.
  assert (length (take 8 l) <= 8)%nat as Hle by (rewrite length_take; lia).
  pose proof (byteOfBits_range (take 8 l) Hle) as Hr.
  assert (2 ^ Z.of_nat (length (take 8 l)) <= 2 ^ 8)
    by (apply Z.pow_le_mono_r; lia).
  change (2 ^ 8) with 256 in *. lia.
Qed.

Lemma packBytes_allBytes m bs : allBytes (packBytes m bs).
Proof.
  revert bs. induction m as [|m IH]; intros bs; [reflexivity|].
  unfold allBytes in *. cbn [packBytes forallb]. rewrite IH, andb_true_r.
  apply isByteb_spec, byteOfBits_byte.
Qed.

Lemma keyBit_cons x k i :
  0 <= i ->
  keyBit (x :: k) i = if i <? 8 then Z.testbit x i else keyBit k (i - 8).
Proof.
  intros Hi. unfold keyBit, u8_get.
  destruct (Z.ltb_spec (i / 8) 0); [dlia|].
  destruct (Z.ltb_spec i 8).
  - replace (i / 8) with 0 by dlia. cbn. f_equal. dlia.
  - destruct (Z.ltb_spec ((i - 8) / 8) 0); [dlia|].
    replace (Z.to_nat (i / 8)) with (S (Z.to_nat ((i - 8) / 8))) by dlia.
    cbn [lookup list_lookup]. f_equal. dlia.
Qed.

(** The bit of the packed bytes at a position is the digit of the string at
    that position. *)
Lemma keyBit_packBytes m bs i :
  0 <= i ->
  keyBit (packBytes m bs) i
  = (i <? 8 * Z.of_nat m) && default false (bs !! Z.to_nat i).
Proof.
  revert bs i. induction m as [|m IH]; intros bs i Hi.
  - cbn [packBytes]. destruct (Z.ltb_spec i (8 * Z.of_nat 0)); [lia|].
    unfold keyBit, u8_get. destruct (_ <? 0); cbn; apply Z.bits_0.
  - cbn [packBytes]. rewrite keyBit_cons by assumption.
    destruct (Z.ltb_spec i 8).
    + destruct (Z.ltb_spec i (8 * Z.of_nat (S m))); [|lia].
      rewrite testbit_byteOfBits by assumption.
      rewrite lookup_take_lt by lia. reflexivity.
    + rewrite IH by lia. rewrite lookup_drop.
      replace (8 + Z.to_nat (i - 8))%nat with (Z.to_nat i) by lia.
      f_equal.
      destruct (Z.ltb_spec (i - 8) (8 * Z.of_nat m)),
               (Z.ltb_spec i (8 * Z.of_nat (S m))); try reflexivity; lia.
Qed.

Lemma binaryDigits_app s1 s2 :
  binaryDigits (s1 ++ s2)
  = match binaryDigits s1, binaryDigits s2 with
    | Some b1, Some b2 => Some (b1 ++ b2)
    | _, _ => None
    end.
Proof.
  induction s1 as [|c s1 IH]; cbn [String.append binaryDigits].
  - destruct (binaryDigits s2); reflexivity.
  - rewrite IH.
    destruct (parseBinaryDigit c), (binaryDigits s1), (binaryDigits s2); reflexivity.
Qed.

Lemma binaryDigits_length s bs : binaryDigits s = Some bs -> length bs = String.length s.
Proof.
  revert bs. induction s as [|c s IH]; intros bs; cbn [binaryDigits].
  - intros [= <-]. reflexivity.
  - destruct (parseBinaryDigit c), (binaryDigits s); try discriminate.
    intros [= <-]. cbn. f_equal. auto.
Qed.

Lemma isBinaryString_digits s :
  isBinaryString s = true <-> exists bs, binaryDigits s = Some bs.
Proof.
  induction s as [|c s IH]; cbn [isBinaryString binaryDigits].
  - split; eauto.
  - unfold parseBinaryDigit.
    destruct (Ascii.eqb c "0"); cbn [orb andb].
    + rewrite IH. destruct (binaryDigits s); split; eauto.
    + destruct (Ascii.eqb c "1"); cbn [andb].
      * rewrite IH. destruct (binaryDigits s); split; eauto.
      * split; [discriminate | intros [bs' E]; discriminate].
Qed.

Lemma stringOfBits_digits s bs : binaryDigits s = Some bs -> stringOfBits bs = s.
Proof.
  revert bs. induction s as [|c s IH]; intros bs; cbn [binaryDigits].
  - intros [= <-]. reflexivity.
  - unfold parseBinaryDigit.
    destruct (Ascii.eqb_spec c "0"%char) as [->|N0].
    + destruct (binaryDigits s); try discriminate.
      intros [= <-]. cbn. f_equal. auto.
    + destruct (Ascii.eqb_spec c "1"%char) as [->|N1]; [|discriminate].
      destruct (binaryDigits s); try discriminate.
      intros [= <-]. cbn. f_equal. auto.
Qed.

(** The padding: a prefix of [ZEROS] is a run of zero digits. *)
Lemma binaryDigits_zeros s m :
  binaryDigits s = Some (replicate (String.length s) false) ->
  binaryDigits (String.substring 0 m s)
  = Some (replicate (Nat.min m (String.length s)) false).
Proof.
  revert m. induction s as [|c s IH]; intros m H.
  - destruct m; reflexivity.
  - destruct m as [|m]; [reflexivity|].
    cbn [binaryDigits String.length replicate] in H.
    destruct (parseBinaryDigit c) as [[|]|] eqn:Ec; try discriminate;
      destruct (binaryDigits s) eqn:Es; try discriminate.
    injection H as H.
    cbn [String.substring binaryDigits String.length Nat.min replicate].
    rewrite Ec. rewrite IH by (f_equal; assumption). reflexivity.
Qed.

Lemma binaryDigits_pad s bs :
  binaryDigits s = Some bs ->
  binaryDigits (padWithZeros s BIT_LENGTH)
  = Some (bs ++ replicate (256 - length bs) false).
Proof.
  intros H. pose proof (binaryDigits_length s bs H) as Hlen.
  unfold padWithZeros, JS.substring0, strlen, BIT_LENGTH.
  rewrite binaryDigits_app, H.
  rewrite binaryDigits_zeros by reflexivity.
  change (String.length ZEROS) with 256%nat.
  do 2 f_equal. f_equal. lia.
Qed.

(** ** The constructor *)

Lemma new_string_ok s bs len :
  binaryDigits s = Some bs ->
  new_ProofPath (BitsString s) len
  = Ok {| key := keyOfBits bs;
          bitLength := strlen s;
          hexKey := uint8ArrayToHexadecimal (keyOfBits bs) |}.
Proof.
  intros H. unfold new_ProofPath, binaryStringToUint8Array.
  rewrite (binaryDigits_pad s bs H). reflexivity.
Qed.

Lemma new_string_fails s len :
  isBinaryString s = false ->
  new_ProofPath (BitsString s) len = Throw TypeError.
Proof.
  intros H. unfold new_ProofPath, binaryStringToUint8Array.
  unfold padWithZeros. rewrite binaryDigits_app.
  destruct (binaryDigits s) as [bs|] eqn:E; [|reflexivity].
  assert (isBinaryString s = true) by (apply isBinaryString_digits; eauto).
  congruence.
Qed.

Lemma keyBit_keyOfBits bs i :
  Z.of_nat (length bs) <= i -> keyBit (keyOfBits bs) i = false.
Proof.
  intros Hi. unfold keyOfBits. rewrite keyBit_packBytes by lia.
  unfold paddedBits at 2. rewrite lookup_app_r by lia.
  destruct (replicate _ _ !! _) as [b|] eqn:E.
  - apply lookup_replicate in E as [-> _]. apply andb_false_r.
  - apply andb_false_r.
Qed.

Lemma zeroPadded_intro p :
  (forall i, 0 <= i -> bitLength p <= i -> keyBit (key p) i = false) ->
  zeroPadded p.
Proof.
  intros H i Hi Hlen. rewrite getBit_keyBit by assumption.
  now rewrite H.
Qed.

(** ** The interchange text form *)

Lemma stringOfBits_length l : strlen (stringOfBits l) = Z.of_nat (length l).
Proof.
  unfold strlen. f_equal. induction l; cbn; auto.
Qed.

Lemma substring_stringOfBits bs zs :
  String.substring 0 (length bs) (stringOfBits (bs ++ zs)) = stringOfBits bs.
Proof.
  induction bs as [|b bs IH]; cbn.
  - destruct (stringOfBits zs); reflexivity.
  - now rewrite IH.
Qed.

Lemma binaryStringLsb_packBytes m bits :
  length bits = (8 * m)%nat ->
  binaryStringLsb (packBytes m bits) = stringOfBits bits.
Proof.
  revert bits. induction m as [|m IH]; intros bits Hlen.
  - destruct bits; [reflexivity | discriminate].
  - do 8 (destruct bits as [|? bits]; [cbn in Hlen; lia|]).
    cbn [packBytes binaryStringLsb take drop firstn skipn].
    rewrite take_0, drop_0.
    rewrite IH by (cbn in Hlen; lia).
    unfold byteLsbFirst. rewrite !testbit_byteOfBits by lia.
    reflexivity.
Qed.

Lemma hexValue_hexDigit n : 0 <= n < 16 -> hexValue (hexDigit n) = Some n.
Proof.
  intros Hn. rewrite <- (Z2Nat.id n) by lia.
  assert (Z.to_nat n < 16)%nat as Hm by lia.
  revert Hm. generalize (Z.to_nat n) as m. intros m Hm.
  do 16 (destruct m as [|m]; [reflexivity|]). lia.
Qed.

(** The conversion returns the binary string of the bytes behind a
    hexadecimal string. *)
Lemma hexadecimalToBinaryString_bytes a :
  allBytes a ->
  hexadecimalToBinaryString (uint8ArrayToHexadecimal a) = binaryStringLsb a.
Proof.
  unfold allBytes. induction a as [|b a IH]; intros Ha; [reflexivity|].
  cbn [forallb] in Ha. apply andb_true_iff in Ha as [Hb Ha].
  apply isByteb_spec in Hb.
  cbn [uint8ArrayToHexadecimal hexadecimalToBinaryString binaryStringLsb].
  rewrite !hexValue_hexDigit by dlia.
  rewrite IH by assumption. f_equal. dlia.
Qed.

(** C8. On a path of the data model [bit] returns [undefined] exactly for
    a position below 0 or from the length on; for a position in range it
    returns the bit, 0 or 1, at offset [pos mod 8] of the byte at index
    [pos / 8] of the key, offset 0 being the least significant bit. The
    path of "110" has length 3 and the bits 1, 1, 0, and no bit at 3. *)
Theorem bit_spec (p : ProofPath) (pos : Z) :
  wf p ->
  (bit p pos = None <-> pos < 0 \/ pos >= bitLength p)
  /\ (0 <= pos < bitLength p ->
      exists byte x,
        u8_get (key p) (pos / 8) = Some byte
        /\ bit p pos = Some x
        /\ x = Z.b2z (Z.testbit byte (pos mod 8))
        /\ (x = 0 \/ x = 1))
  /\ (exists q,
        new_ProofPath (BitsString "110") None = Ok q
        /\ bitLength q = 3
        /\ bit q 0 = Some 1 /\ bit q 1 = Some 1 /\ bit q 2 = Some 0
        /\ bit q 3 = None).
Proof.
  intros Hp. pose proof (wf_bitLength p Hp) as Lp.
  pose proof (wf_length p Hp) as Hlen.
  split; [apply bit_out_of_range|]. split.
  - intros Hpos.
    destruct (lookup_lt_is_Some_2 (key p) (Z.to_nat (pos / 8)) ltac:(dlia))
      as [byte Hbyte].
    assert (u8_get (key p) (pos / 8) = Some byte) as Hget.
    { unfold u8_get. destruct (Z.ltb_spec (pos / 8) 0); [dlia | assumption]. }
    exists byte, (Z.b2z (Z.testbit byte (pos mod 8))).
    repeat split; auto.
    + rewrite bit_in_range by assumption. unfold keyBit. now rewrite Hget.
    + destruct (Z.testbit byte (pos mod 8)); auto.
  - eexists. split; [reflexivity|]. repeat split.
Qed.

Lemma bit_spec_witness :
  wf samplePath7
  /\ bit samplePath7 2 = Some 1 /\ bit samplePath7 7 = None.
Proof.
  destruct (bit_spec samplePath7 7 eq_refl) as (Hnone & _ & _).
  destruct (bit_spec samplePath7 2 eq_refl) as (_ & Hin & _).
  split; [reflexivity|].
  destruct Hin as (byte & x & Hbyte & Hx & -> & _); [cbn; lia|].
  injection Hbyte as <-.
  split; [exact Hx|].
  apply Hnone. cbn. lia.
Defined.

(** ** What the constructor accepts *)

(** The constructor does not look at an explicit length: an array of 32
    bytes is taken with the length 300, and with the length -1. *)
Lemma constructor_accepts_any_length :
  (300 > 256 /\ exists p,
      new_ProofPath (BitsUint8Array (u8_new 32)) (Some 300) = Ok p
      /\ bitLength p = 300)
  /\ (-1 < 0 /\ exists p,
      new_ProofPath (BitsUint8Array (u8_new 32)) (Some (-1)) = Ok p
      /\ bitLength p = -1).
Proof.
  split; (split; [lia|]); eexists; split; reflexivity.
Qed.

(** C7, as the constructor behaves. It raises its [TypeError], the
    invalid-input error, exactly when the input is neither a string of
    binary digits nor an array of 32 bytes; it succeeds on every other
    input, whatever explicit length comes with it, and the length of the
    path is then the length of the string, or the explicit length given
    with the array, or 256 when none is given. *)
Theorem constructor_fails_iff (bits : bitsArg) (len : option Z) :
  (new_ProofPath bits len = Throw TypeError <-> acceptedBits bits = false)
  /\ (acceptedBits bits = true ->
      exists p,
        new_ProofPath bits len = Ok p
        /\ bitLength p = match bits with
                         | BitsString s => strlen s
                         | _ => default 256 len
                         end).
Proof.
  destruct bits as [s|a|]; cbn [acceptedBits].
  - destruct (isBinaryString s) eqn:E.
    + apply isBinaryString_digits in E as [bs Hbs].
      rewrite (new_string_ok s bs len Hbs).
      split; [split; discriminate|]. intros _. eexists. split; reflexivity.
    + rewrite (new_string_fails s len E).
      split; [split; reflexivity | discriminate].
  - unfold new_ProofPath. change (BIT_LENGTH / 8) with 32.
    destruct (Z.of_nat (length a) =? 32).
    + split; [split; discriminate|]. intros _. eexists. split; reflexivity.
    + split; [split; reflexivity | discriminate].
  - split; [split; reflexivity | discriminate].
Qed.

Lemma constructor_fails_iff_witness :
  acceptedBits (BitsString "0110") = true
  /\ exists p, new_ProofPath (BitsString "0110") (Some 9) = Ok p
               /\ bitLength p = 4.
Proof.
  split; [reflexivity|].
  destruct (constructor_fails_iff (BitsString "0110") (Some 9)) as [_ H].
  apply H. reflexivity.
Defined.

(** ** Zero padding *)

(** An array of bytes with bits set everywhere, given with the length 3,
    becomes a path whose bit 3 is set. *)
Lemma buffer_with_length_keeps_high_bits :
  exists p,
    new_ProofPath (BitsUint8Array (replicate 32 255)) (Some 3) = Ok p
    /\ bitLength p = 3
    /\ getBit (key p) 3 = 1
    /\ ~ zeroPadded p.
Proof.
  eexists. split; [reflexivity|]. repeat split.
  intros H. specialize (H 3 ltac:(lia) ltac:(cbn; lia)). discriminate H.
Qed.

(** C1, as the code behaves. The key has only zero bits from [bitLength]
    on in every path built from a string of binary digits, from an array
    of 32 bytes without an explicit length, by [truncate] to a length from
    0 up to the path's own, and by [commonPrefix]. A path built from an
    array with an explicit length has the array as it is, and is zero
    padded exactly when the array was. *)
Theorem zero_padding (s : string) (a : Uint8Array) (n : Z) (len : option Z)
    (p other : ProofPath) :
  (isBinaryString s = true ->
   exists q, new_ProofPath (BitsString s) len = Ok q /\ zeroPadded q)
  /\ (Z.of_nat (length a) = 32 ->
      exists q, new_ProofPath (BitsUint8Array a) None = Ok q /\ zeroPadded q)
  /\ (Z.of_nat (length a) = 32 ->
      exists q,
        new_ProofPath (BitsUint8Array a) (Some n) = Ok q
        /\ key q = a
        /\ (zeroPadded q <-> forall i, 0 <= i -> n <= i -> getBit a i = 0))
  /\ (wf p -> 0 <= n <= bitLength p ->
      exists q, truncate p n = Ok q /\ zeroPadded q)
  /\ (wf p -> wf other ->
      exists q, commonPrefix p other = Ok q /\ zeroPadded q).
Proof.
  repeat apply conj.
  - intros Hs. apply isBinaryString_digits in Hs as [bs Hbs].
    rewrite (new_string_ok s bs len Hbs). eexists. split; [reflexivity|].
    apply zeroPadded_intro. cbn [key bitLength]. intros i Hi Hlen.
    apply keyBit_keyOfBits. unfold strlen in Hlen.
    rewrite (binaryDigits_length s bs Hbs). lia.
  - intros Ha. unfold new_ProofPath. change (BIT_LENGTH / 8) with 32.
    rewrite Ha. cbn [Z.eqb Pos.eqb]. eexists. split; [reflexivity|].
    apply zeroPadded_intro. cbn [key bitLength default].
    intros i Hi Hlen. apply keyBit_beyond. unfold BIT_LENGTH in Hlen. lia.
  - intros Ha. unfold new_ProofPath. change (BIT_LENGTH / 8) with 32.
    rewrite Ha. cbn [Z.eqb Pos.eqb]. eexists. split; [reflexivity|].
    split; [reflexivity|]. unfold zeroPadded. cbn [key bitLength default].
    reflexivity.
  - intros Hp Hn.
    destruct (truncate_in_range p n Hp Hn) as (q & Eq & Elen & _ & _ & Hzero).
    exists q. split; [assumption|]. intros i Hi Hlen. apply Hzero. lia.
  - intros Hp Ho. unfold commonPrefix.
    destruct (commonPrefixLength_spec p other Hp Ho) as (Hk & _).
    destruct (truncate_in_range p (commonPrefixLength p other) Hp)
      as (q & Eq & Elen & _ & _ & Hzero); [lia|].
    exists q. split; [assumption|]. intros i Hi Hlen. apply Hzero. lia.
Qed.

Lemma zero_padding_witness :
  isBinaryString "1011" = true /\ wf samplePath7 /\ wf samplePath12
  /\ (exists q, new_ProofPath (BitsString "1011") None = Ok q /\ zeroPadded q)
  /\ (exists q, new_ProofPath (BitsUint8Array (key samplePath7)) None = Ok q
                /\ zeroPadded q)
  /\ (exists q, new_ProofPath (BitsUint8Array (key samplePath7)) (Some 3) = Ok q
                /\ key q = key samplePath7)
  /\ (exists q, truncate samplePath7 3 = Ok q /\ zeroPadded q)
  /\ (exists q, commonPrefix samplePath7 samplePath12 = Ok q /\ zeroPadded q).
Proof.
  destruct (zero_padding "1011" (key samplePath7) 3 None samplePath7 samplePath12)
    as (Hs & Ha & He & Ht & Hc).
  split; [reflexivity|]. split; [reflexivity|]. split; [reflexivity|].
  split; [apply Hs; reflexivity|].
  split; [apply Ha; reflexivity|].
  split.
  { destruct He as (q & Eq & Ek & _); [reflexivity|]. exists q. auto. }
  split; [apply Ht; [reflexivity | cbn; lia]|].
  apply Hc; reflexivity.
Defined.

(** ** The round trip through the text form *)

(** The round trip for any conversion that expands each byte, a pair of
    hexadecimal digits, to eight binary digits with the least significant
    bit first. *)
Lemma toJSON_with_roundtrip (hexToBinary : string -> string) (s : string) :
  (forall a, allBytes a ->
             hexToBinary (uint8ArrayToHexadecimal a) = binaryStringLsb a) ->
  isBinaryString s = true -> strlen s <= 256 ->
  exists p,
    new_ProofPath (BitsString s) None = Ok p
    /\ toJSON_with hexToBinary p = Ok s.
Proof.
  intros Hconv Hs Hlen.
  apply isBinaryString_digits in Hs as [bs Hbs].
  pose proof (binaryDigits_length s bs Hbs) as Hbl.
  pose proof (stringOfBits_digits s bs Hbs) as Hstr.
  unfold strlen in Hlen.
  rewrite (new_string_ok s bs None Hbs). eexists. split; [reflexivity|].
  unfold toJSON_with. cbn [hexKey bitLength].
  rewrite Hconv by apply packBytes_allBytes.
  assert (length (paddedBits bs) = (8 * 32)%nat) as Hpad.
  { unfold paddedBits. rewrite length_app, length_replicate. lia. }
  unfold keyOfBits. rewrite Hpad. change (Nat.div (8 * 32 + 7) 8) with 32%nat.
  rewrite binaryStringLsb_packBytes by assumption.
  unfold trimZeros. rewrite stringOfBits_length, Hpad.
  destruct (Z.ltb_spec (Z.of_nat (8 * 32)) (strlen s)) as [Hlt|_];
    [unfold strlen in Hlt; lia|].
  f_equal. unfold JS.substring0, strlen, paddedBits.
  rewrite Nat2Z.id, <- Hbl, substring_stringOfBits. exact Hstr.
Qed.

(** C9. A string of at most 256 binary digits made into a path and
    rendered with [toJSON] comes back unchanged. *)
Theorem toJSON_roundtrip (s : string) :
  isBinaryString s = true -> strlen s <= 256 ->
  exists p,
    new_ProofPath (BitsString s) None = Ok p
    /\ toJSON p = Ok s.
Proof.
  intros Hs Hlen. unfold toJSON.
  apply toJSON_with_roundtrip; auto.
  exact hexadecimalToBinaryString_bytes.
Qed.

Lemma toJSON_roundtrip_witness :
  isBinaryString "110" = true /\ strlen "110" <= 256
  /\ exists p,
       new_ProofPath (BitsString "110") None = Ok p
       /\ toJSON p = Ok "110"%string.
Proof.
  split; [reflexivity|]. split; [vm_compute; discriminate|].
  apply (toJSON_roundtrip "110").
  - reflexivity.
  - vm_compute. discriminate.
Defined.

(** ** The scenarios of the specification, run on the embedding *)

Example scenario_prefix_110_1101 :
  exists p q,
    new_ProofPath (BitsString "110") None = Ok p
    /\ new_ProofPath (BitsString "1101") None = Ok q
    /\ commonPrefixLength p q = 3 /\ startsWith q p = true.
Proof. do 2 eexists. repeat split; reflexivity. Qed.

Example scenario_compare_10_11 :
  exists p q,
    new_ProofPath (BitsString "10") None = Ok p
    /\ new_ProofPath (BitsString "11") None = Ok q
    /\ commonPrefixLength p q = 1 /\ compare p q = Some (-1).
Proof. do 2 eexists. repeat split; reflexivity. Qed.

Example scenario_serialize_1010101 :
  exists p,
    new_ProofPath (BitsString "1010101") None = Ok p
    /\ serialize p [] = [Some 7; Some 85].
Proof. eexists. split; reflexivity. Qed.

Example scenario_serialize_terminal :
  exists p,
    new_ProofPath (BitsUint8Array (u8_new 32)) None = Ok p
    /\ isTerminal p = true
    /\ serialize p [] = Some 128 :: Some 2 :: replicate 32 (Some 0).
Proof. eexists. repeat split; reflexivity. Qed.

Example scenario_truncate_to_empty :
  exists p q,
    new_ProofPath (BitsUint8Array (replicate 32 255)) None = Ok p
    /\ truncate p 0 = Ok q
    /\ toJSON q = Ok ""%string /\ isTerminal q = false.
Proof. do 2 eexists. repeat split; reflexivity. Qed.

(** * Further properties of the operations *)

(** Closed arithmetic facts, by computation. *)
Ltac by_compute :=
  vm_compute; repeat split; solve [discriminate | reflexivity | auto].

(** ** Keys with the same bits *)

Lemma byte_ext b1 b2 :
  0 <= b1 < 256 -> 0 <= b2 < 256 ->
  (forall t, 0 <= t < 8 -> Z.testbit b1 t = Z.testbit b2 t) -> b1 = b2.
Proof.
  intros H1 H2 Hbits. apply Z.bits_inj'. intros t Ht.
  destruct (Z.lt_ge_cases t 8) as [Hlt|Hge]; [apply Hbits; lia|].
  rewrite <- (Z.mod_small b1 (2 ^ 8)), <- (Z.mod_small b2 (2 ^ 8)) by (cbn; lia).
  rewrite !Z.mod_pow2_bits_high by lia. reflexivity.
Qed.

(** Two arrays of bytes of one length with the same bits are the same. *)
Lemma key_ext (k1 k2 : Uint8Array) :
  length k1 = length k2 -> allBytes k1 -> allBytes k2 ->
  (forall i, 0 <= i -> keyBit k1 i = keyBit k2 i) -> k1 = k2.
Proof.
  intros Hlen H1 H2 Hbits. apply list_eq. intros j.
  destruct (k1 !! j) as [b1|] eqn:E1.
  - destruct (lookup_lt_is_Some_2 k2 j) as [b2 E2].
    { rewrite <- Hlen. apply lookup_lt_is_Some_1. eauto. }
    rewrite E2. f_equal.
    apply byte_ext;
      [exact (allBytes_lookup k1 j b1 H1 E1)
      |exact (allBytes_lookup k2 j b2 H2 E2)|].
    intros t Ht.
    specialize (Hbits (8 * Z.of_nat j + t) ltac:(lia)).
    unfold keyBit, u8_get in Hbits.
    replace ((8 * Z.of_nat j + t) / 8) with (Z.of_nat j) in Hbits by dlia.
    replace ((8 * Z.of_nat j + t) mod 8) with t in Hbits by dlia.
    destruct (Z.ltb_spec (Z.of_nat j) 0); [lia|].
    rewrite Nat2Z.id, E1, E2 in Hbits. exact Hbits.
  - symmetry. apply lookup_ge_None_2. rewrite <- Hlen.
    apply lookup_ge_None_1. exact E1.
Qed.

Lemma keyBit_of_bit p q i :
  0 <= i < bitLength p -> 0 <= i < bitLength q ->
  bit p i = bit q i -> keyBit (key p) i = keyBit (key q) i.
Proof.
  intros Hp Hq. rewrite !bit_in_range by assumption.
  intros [= E]. destruct (keyBit (key p) i), (keyBit (key q) i);
    cbn in E; congruence.
Qed.

(** ** What [truncate] returns *)

Lemma truncate_fields p n q :
  truncate p n = Ok q ->
  bitLength q = n /\ hexKey q = uint8ArrayToHexadecimal (key q).
Proof.
  unfold truncate. destruct (n >? bitLength p); [discriminate|].
  unfold new_ProofPath. destruct (_ =? _); [|discriminate].
  intros [= <-]. split; reflexivity.
Qed.

(** Truncations of two paths that agree below the new length are the same
    path. *)
Lemma truncate_agree p p' n :
  wf p -> wf p' -> 0 <= n <= bitLength p -> n <= bitLength p' ->
  (forall i, 0 <= i < n -> bit p i = bit p' i) ->
  truncate p n = truncate p' n.
Proof.
  intros Hp Hp' Hn Hn' Hagree.
  pose proof (wf_bitLength p Hp) as Lp.
  destruct (truncate_ok p n Hn ltac:(lia)) as (q & Eq & _ & Hlen & Hall & Hbits).
  destruct (truncate_ok p' n ltac:(lia) ltac:(lia))
    as (q' & Eq' & _ & Hlen' & Hall' & Hbits').
  destruct (truncate_fields p n q Eq) as [El Eh].
  destruct (truncate_fields p' n q' Eq') as [El' Eh'].
  rewrite Eq, Eq'. f_equal.
  assert (key q = key q') as Ek.
  { apply key_ext; auto; [congruence|].
    intros i Hi. rewrite Hbits, Hbits' by assumption.
    destruct (Z.ltb_spec i n); [|reflexivity]. cbn [andb].
    apply keyBit_of_bit; try lia. apply Hagree. lia. }
  destruct q, q'. cbn in *. congruence.
Qed.

(** ** Prefixes *)

(** [startsWith] in terms of lengths and bits. *)
Lemma startsWith_iff a b :
  wf a -> wf b ->
  (startsWith a b = true
   <-> bitLength b <= bitLength a
       /\ forall i, 0 <= i < bitLength b -> bit a i = bit b i).
Proof.
  intros Ha Hb. pose proof (wf_bitLength b Hb) as Lb.
  destruct (commonPrefixLength_spec a b Ha Hb) as (H1 & H2 & H3).
  unfold startsWith. rewrite Z.eqb_eq. split.
  - intros E. rewrite E in *. split; [lia | exact H2].
  - intros [Hle Hagree]. apply commonPrefixLength_unique; auto; lia.
Qed.

(** X1. The common prefix length of two paths of the data model does not
    depend on their order. *)
Theorem commonPrefixLength_symmetric (a b : ProofPath) :
  wf a -> wf b -> commonPrefixLength a b = commonPrefixLength b a.
Proof. apply commonPrefixLength_sym. Qed.

Lemma commonPrefixLength_symmetric_witness :
  wf samplePath7 /\ wf samplePath12
  /\ commonPrefixLength samplePath7 samplePath12
     = commonPrefixLength samplePath12 samplePath7.
Proof.
  split; [reflexivity|]. split; [reflexivity|].
  apply (commonPrefixLength_symmetric samplePath7 samplePath12); reflexivity.
Defined.

(** X2. On paths of the data model [a.startsWith(b)] holds exactly when
    [b] is no longer than [a] and [a] has the bits of [b] at all positions
    of [b]. *)
Theorem startsWith_spec (a b : ProofPath) :
  wf a -> wf b ->
  (startsWith a b = true
   <-> bitLength b <= bitLength a
       /\ forall i, 0 <= i < bitLength b -> bit a i = bit b i).
Proof. apply startsWith_iff. Qed.

Lemma startsWith_spec_witness :
  wf samplePath7 /\ wf samplePath5
  /\ startsWith samplePath7 samplePath5 = true
  /\ bitLength samplePath5 <= bitLength samplePath7.
Proof.
  split; [reflexivity|]. split; [reflexivity|]. split; [reflexivity|].
  apply (startsWith_spec samplePath7 samplePath5); reflexivity.
Defined.

(** X3. [startsWith] is reflexive and transitive on paths of the data
    model. *)
Theorem startsWith_preorder (a b c : ProofPath) :
  wf a -> wf b -> wf c ->
  startsWith a a = true
  /\ (startsWith a b = true -> startsWith b c = true -> startsWith a c = true).
Proof.
  intros Ha Hb Hc. split.
  - apply startsWith_iff; auto. split; [lia | auto].
  - intros Hab Hbc.
    apply startsWith_iff in Hab as [L1 B1]; auto.
    apply startsWith_iff in Hbc as [L2 B2]; auto.
    apply startsWith_iff; auto. split; [lia|].
    intros i Hi. rewrite B1 by lia. apply B2. lia.
Qed.

Lemma startsWith_preorder_witness :
  wf samplePath12 /\ wf samplePath5 /\ wf (pathOfByte 5 3)
  /\ startsWith samplePath12 (pathOfByte 5 3) = true.
Proof.
  split; [reflexivity|]. split; [reflexivity|]. split; [reflexivity|].
  apply (startsWith_preorder samplePath12 samplePath5 (pathOfByte 5 3));
    reflexivity.
Defined.

(** X4. When a path of the data model starts with another one, [compare]
    orders them by length: the result is the sign of the difference of the
    lengths, so the longer path sorts after its prefix and equal lengths
    compare equal. *)
Theorem startsWith_compare (a b : ProofPath) :
  wf a -> wf b -> startsWith a b = true ->
  compare a b = Some (Z.sgn (bitLength a - bitLength b))
  /\ (bitLength a > bitLength b -> compare a b = Some 1).
Proof.
  intros Ha Hb Hs.
  pose proof Hs as Hs'. apply startsWith_iff in Hs' as [Hle _]; auto.
  unfold startsWith in Hs. apply Z.eqb_eq in Hs.
  assert (compare a b = Some (Z.sgn (bitLength a - bitLength b))) as E.
  { unfold compare, JS.sign. cbn zeta. rewrite Hs.
    destruct (Z.eqb_spec (bitLength b) (Z.min (bitLength a) (bitLength b)));
      [reflexivity | lia]. }
  split; [exact E|]. intros Hgt. rewrite E. f_equal. lia.
Qed.

Lemma startsWith_compare_witness :
  wf samplePath7 /\ wf samplePath5
  /\ startsWith samplePath7 samplePath5 = true
  /\ compare samplePath7 samplePath5 = Some 1.
Proof.
  split; [reflexivity|]. split; [reflexivity|]. split; [reflexivity|].
  apply (startsWith_compare samplePath7 samplePath5); try reflexivity.
Defined.

(** ** Canonical paths *)

Lemma wf_allBytes p : wf p -> allBytes (key p).
Proof.
  unfold wf, wfb, allBytes. rewrite !andb_true_iff. tauto.
Qed.

Lemma countFrom_In lo hi i : lo <= i < hi -> In i (countFrom lo hi).
Proof.
  intros Hi. unfold countFrom. apply in_map_iff.
  exists (Z.to_nat (i - lo)). split; [lia|]. apply in_seq. lia.
Qed.

Lemma zeroPaddedb_sound p : zeroPaddedb p = true -> zeroPadded p.
Proof.
  unfold zeroPaddedb. rewrite forallb_forall. intros H.
  apply zeroPadded_intro. intros i Hi Hlen.
  destruct (Z.lt_ge_cases i (8 * Z.of_nat (length (key p)))) as [Hlt|Hge].
  - assert (Z.max 0 (bitLength p) <= i < 8 * Z.of_nat (length (key p)))
      as Hin by lia.
    specialize (H i (countFrom_In _ _ i Hin)).
    now apply negb_true_iff in H.
  - now apply keyBit_beyond.
Qed.

(** Canonical paths with the same length and the same bits are the same
    path. *)
Lemma canonical_ext a b :
  canonical a -> canonical b ->
  bitLength a = bitLength b ->
  (forall i, 0 <= i < bitLength a -> bit a i = bit b i) ->
  a = b.
Proof.
  intros (Ha & Za & Xa) (Hb & Zb & Xb) Hlen Hbits.
  assert (key a = key b) as Ek.
  { apply key_ext; auto using wf_allBytes.
    - now rewrite (wf_length a Ha), (wf_length b Hb).
    - intros i Hi. destruct (Z.lt_ge_cases i (bitLength a)) as [Hlt|Hge].
      + apply keyBit_of_bit; try lia. apply Hbits. lia.
      + specialize (Za i Hi Hge). specialize (Zb i Hi ltac:(lia)).
        rewrite getBit_keyBit in Za, Zb by assumption.
        destruct (keyBit (key a) i), (keyBit (key b) i);
          cbn in Za, Zb; congruence. }
  destruct a, b. cbn in *. congruence.
Qed.

(** [compare] returns 0 exactly for the same length and the same bits. *)
Lemma compare_zero_bits a b :
  wf a -> wf b ->
  (compare a b = Some 0
   <-> bitLength a = bitLength b
       /\ forall i, 0 <= i < bitLength a -> bit a i = bit b i).
Proof.
  intros Ha Hb.
  pose proof (wf_bitLength a Ha) as La. pose proof (wf_bitLength b Hb) as Lb.
  destruct (commonPrefixLength_spec a b Ha Hb) as (H1 & H2 & H3).
  split.
  - intros E.
    destruct (compare_cases a b Ha Hb)
      as [(E1 & E2)|[(_ & _ & _ & _ & E5)|(_ & _ & _ & _ & E5)]];
      try congruence.
    rewrite E2 in E. injection E as E.
    assert (bitLength a = bitLength b) as El by lia.
    split; [exact El|]. intros i Hi. apply H2. lia.
  - intros [El Hagree].
    assert (commonPrefixLength a b = bitLength a) as Ek.
    { apply commonPrefixLength_unique; auto; lia. }
    destruct (compare_cases a b Ha Hb)
      as [(E1 & E2)|[(E1 & _)|(E1 & _)]]; try lia.
    rewrite E2. f_equal. lia.
Qed.



(** X6. Truncating twice is truncating once to the smaller length: for a
    path of the data model and [0 <= j <= k <= bitLength],
    [p.truncate(k).truncate(j)] is [p.truncate(j)]; with [j = k],
    truncation is idempotent. *)
Theorem truncate_truncate (p : ProofPath) (k j : Z) :
  wf p -> 0 <= j <= k -> k <= bitLength p ->
  exists q, truncate p k = Ok q /\ truncate q j = truncate p j.
Proof.
  intros Hp Hj Hk.
  destruct (truncate_in_range p k Hp ltac:(lia)) as (q & Eq & El & Hq & Hbits & _).
  exists q. split; [exact Eq|].
  apply truncate_agree; auto; try lia.
  intros i Hi. apply Hbits. lia.
Qed.

Lemma truncate_truncate_witness :
  wf samplePath12 /\ 0 <= 3 <= 7 /\ 7 <= bitLength samplePath12
  /\ exists q, truncate samplePath12 7 = Ok q
               /\ truncate q 3 = truncate samplePath12 3.
Proof.
  split; [reflexivity|]. split; [lia|]. split; [cbn; lia|].
  apply (truncate_truncate samplePath12 7 3); [reflexivity | lia | cbn; lia].
Defined.

(** X7. A truncation of a path of the data model within its length is a
    canonical path; truncating a canonical path to its own length returns
    the path itself. *)
Theorem truncate_canonical (p : ProofPath) (n : Z) :
  wf p -> 0 <= n <= bitLength p ->
  exists q,
    truncate p n = Ok q /\ canonical q
    /\ (n = bitLength p -> canonical p -> q = p).
Proof.
  intros Hp Hn.
  destruct (truncate_in_range p n Hp Hn) as (q & Eq & El & Hq & Hbits & Hzero).
  destruct (truncate_fields p n q Eq) as [_ Eh].
  assert (canonical q) as Cq.
  { repeat split; auto. intros i Hi Hlen. apply Hzero. lia. }
  exists q. repeat split; try apply Cq; auto.
  intros -> Cp. apply canonical_ext; auto.
  intros i Hi. apply Hbits. lia.
Qed.

Lemma truncate_canonical_witness :
  wf samplePath5 /\ 0 <= 5 <= bitLength samplePath5
  /\ exists q, truncate samplePath5 5 = Ok q /\ q = samplePath5.
Proof.
  split; [reflexivity|]. split; [cbn; lia|].
  destruct (truncate_canonical samplePath5 5 eq_refl) as (q & Eq & _ & Hid);
    [cbn; lia|].
  exists q. split; [exact Eq|]. apply Hid; [reflexivity|].
  repeat split. apply zeroPaddedb_sound. reflexivity.
Defined.

(** X8. [commonPrefix] of two paths of the data model is the longest
    common prefix: its length is the common prefix length, both paths
    start with it, and it starts with every path both start with. *)
Theorem commonPrefix_greatest (a b c : ProofPath) :
  wf a -> wf b -> wf c ->
  exists q,
    commonPrefix a b = Ok q
    /\ bitLength q = commonPrefixLength a b
    /\ startsWith a q = true /\ startsWith b q = true
    /\ (startsWith a c = true -> startsWith b c = true ->
        startsWith q c = true).
Proof.
  intros Ha Hb Hc.
  pose proof (wf_bitLength c Hc) as Lc.
  destruct (commonPrefixLength_spec a b Ha Hb) as (H1 & H2 & H3).
  unfold commonPrefix.
  destruct (truncate_in_range a (commonPrefixLength a b) Ha ltac:(lia))
    as (q & Eq & El & Hq & Hbits & _).
  exists q. split; [exact Eq|]. split; [exact El|].
  split; [|split].
  - apply startsWith_iff; auto. rewrite El. split; [lia|].
    intros i Hi. symmetry. apply Hbits. lia.
  - apply startsWith_iff; auto. rewrite El. split; [lia|].
    intros i Hi. rewrite Hbits by lia. symmetry. apply H2. lia.
  - intros Sa Sb.
    apply startsWith_iff in Sa as [La Ba]; auto.
    apply startsWith_iff in Sb as [Lb Bb]; auto.
    assert (bitLength c <= commonPrefixLength a b) as Hle.
    { apply (prefix_length_unique a b (commonPrefixLength a b) (bitLength c));
        auto; [lia|].
      intros i Hi. rewrite Ba, Bb by lia. reflexivity. }
    apply startsWith_iff; auto. rewrite El. split; [lia|].
    intros i Hi. rewrite Hbits by lia. apply Ba. lia.
Qed.

Lemma commonPrefix_greatest_witness :
  wf samplePath7 /\ wf samplePath12 /\ wf samplePath5
  /\ exists q,
       commonPrefix samplePath7 samplePath12 = Ok q
       /\ bitLength q = 6 /\ startsWith q samplePath5 = true.
Proof.
  split; [reflexivity|]. split; [reflexivity|]. split; [reflexivity|].
  destruct (commonPrefix_greatest samplePath7 samplePath12 samplePath5
              eq_refl eq_refl eq_refl) as (q & Eq & El & _ & _ & Hg).
  exists q. split; [exact Eq|]. split; [exact El|].
  apply Hg; reflexivity.
Defined.

(** X9. [commonPrefix] does not depend on the order of two paths of the
    data model: [a.commonPrefix(b)] and [b.commonPrefix(a)] are the same
    path. *)
Theorem commonPrefix_commutative (a b : ProofPath) :
  wf a -> wf b -> commonPrefix a b = commonPrefix b a.
Proof.
  intros Ha Hb.
  destruct (commonPrefixLength_spec a b Ha Hb) as (H1 & H2 & H3).
  unfold commonPrefix. rewrite <- (commonPrefixLength_sym a b Ha Hb).
  apply truncate_agree; auto; lia.
Qed.

Lemma commonPrefix_commutative_witness :
  wf samplePath7 /\ wf samplePath12
  /\ commonPrefix samplePath7 samplePath12
     = commonPrefix samplePath12 samplePath7.
Proof.
  split; [reflexivity|]. split; [reflexivity|].
  apply (commonPrefix_commutative samplePath7 samplePath12); reflexivity.
Defined.

(** ** Bits of a buffer *)

(** X10. [setBit] at a position inside the buffer with the bit 0 or 1
    keeps the size of the buffer, makes [getBit] return that bit at the
    position, and leaves the bit at every other position as it was. *)
Theorem setBit_getBit (buf : Uint8Array) (pos : Z) (v : bool) :
  0 <= pos < 8 * Z.of_nat (length buf) ->
  length (setBit buf pos (Some (Z.b2z v))) = length buf
  /\ getBit (setBit buf pos (Some (Z.b2z v))) pos = Z.b2z v
  /\ (forall i, 0 <= i -> i <> pos ->
                getBit (setBit buf pos (Some (Z.b2z v))) i = getBit buf i).
Proof.
  intros Hpos. split; [apply setBit_length|]. split.
  - rewrite getBit_keyBit, keyBit_setBit by lia.
    now rewrite Z.eqb_refl.
  - intros i Hi Hne. rewrite !getBit_keyBit, keyBit_setBit by lia.
    destruct (Z.eqb_spec i pos); [contradiction | reflexivity].
Qed.

Lemma setBit_getBit_witness :
  0 <= 9 < 8 * Z.of_nat (length (u8_new 4))
  /\ setBit (u8_new 4) 9 (Some 1) = [0; 2; 0; 0]
  /\ getBit (setBit (u8_new 4) 9 (Some 1)) 9 = 1.
Proof.
  split; [by_compute|]. split; [reflexivity|].
  apply (setBit_getBit (u8_new 4) 9 true). by_compute.
Defined.

(** X11. [setBit] at a position outside the buffer, negative or past the
    end, changes nothing; inside the buffer every bit argument other than
    0, [undefined] included, sets the bit. *)
Theorem setBit_edges (buf : Uint8Array) (pos : Z) (v : option Z) :
  (pos < 0 \/ 8 * Z.of_nat (length buf) <= pos -> setBit buf pos v = buf)
  /\ (0 <= pos < 8 * Z.of_nat (length buf) -> v <> Some 0 ->
      getBit (setBit buf pos v) pos = 1).
Proof.
  split.
  - intros Hout.
    assert (forall x, u8_set buf (pos / 8) x = buf) as Hset.
    { intros x. unfold u8_set.
      destruct (Z.ltb_spec (pos / 8) 0); [reflexivity|].
      apply list_insert_ge. dlia. }
    unfold setBit, JS.floorDiv. destruct v as [[| |]|]; apply Hset.
  - intros Hpos Hv.
    assert (setBit buf pos v = setBit buf pos (Some (Z.b2z true))) as ->.
    { destruct v as [[| |]|]; try reflexivity. congruence. }
    apply (setBit_getBit buf pos true Hpos).
Qed.

Lemma setBit_edges_witness :
  (-3 < 0 \/ 8 * Z.of_nat (length (u8_new 4)) <= -3)
  /\ setBit (u8_new 4) (-3) None = u8_new 4
  /\ getBit (setBit (u8_new 4) 9 None) 9 = 1.
Proof.
  destruct (setBit_edges (u8_new 4) (-3) None) as [Hout _].
  destruct (setBit_edges (u8_new 4) 9 None) as [_ Hin].
  split; [left; lia|]. split.
  - apply Hout. left. lia.
  - apply Hin; [by_compute | discriminate].
Defined.

(** ** The serialized form *)

(** The bytes [serialize] pushes for a path of the data model. *)
Lemma serialize_bytes p buffer :
  wf p ->
  serialize p buffer
  = buffer
    ++ (if bitLength p <? 128 then [Some (bitLength p)]
        else [Some (128 + bitLength p mod 128); Some (bitLength p / 128)])
    ++ map Some (take (Z.to_nat ((bitLength p + 7) / 8)) (key p)).
Proof.
  intros Hp.
  pose proof (wf_bitLength p Hp) as Lp. pose proof (wf_length p Hp) as Hlen.
  unfold serialize. rewrite push_loop.
  rewrite (shr_3 (bitLength p + 7)) by lia.
  rewrite <- (Z2Nat.id ((bitLength p + 7) / 8)) at 1 by dlia.
  rewrite u8_get_prefix by dlia.
  destruct (Z.ltb_spec (bitLength p) 128).
  - now rewrite <- app_assoc.
  - unfold JS.rem. rewrite Z.rem_mod_nonneg by lia.
    rewrite (shr_small (bitLength p) 7) by lia.
    now rewrite <- app_assoc.
Qed.

Lemma map_Some_inj {A : Type} (l1 l2 : list A) :
  map Some l1 = map Some l2 -> l1 = l2.
Proof.
  revert l2. induction l1 as [|x l1 IH]; intros [|y l2]; cbn;
    try discriminate; auto.
  intros [= -> E]. f_equal. auto.
Qed.

(** X12. The serialized form can be read back without knowing where it
    ends: when the bytes of one path of the data model followed by some
    bytes are the bytes of another followed by some bytes, the two paths
    have the same length and the same bits, and what follows is the
    same. *)
Theorem serialize_prefix_free (p q : ProofPath) (r1 r2 : list (option Z)) :
  wf p -> wf q ->
  serialize p [] ++ r1 = serialize q [] ++ r2 ->
  bitLength p = bitLength q
  /\ (forall i, bit p i = bit q i)
  /\ r1 = r2.
Proof.
  intros Hp Hq E.
  pose proof (wf_bitLength p Hp) as Lp. pose proof (wf_bitLength q Hq) as Lq.
  pose proof (wf_length p Hp) as Kp. pose proof (wf_length q Hq) as Kq.
  rewrite !serialize_bytes in E by assumption. cbn [app] in E.
  assert (bitLength p = bitLength q
          /\ map Some (take (Z.to_nat ((bitLength p + 7) / 8)) (key p)) ++ r1
             = map Some (take (Z.to_nat ((bitLength q + 7) / 8)) (key q)) ++ r2)
    as [El Epay].
  { destruct (Z.ltb_spec (bitLength p) 128), (Z.ltb_spec (bitLength q) 128);
      cbn [app] in E.
    - injection E as E1 E2. split; [exact E1 | exact E2].
    - exfalso. injection E as E1 _. dlia.
    - exfalso. injection E as E1 _. dlia.
    - injection E as E1 E2 E3. split; [dlia | exact E3]. }
  rewrite <- El in Epay.
  apply app_inj_1 in Epay as [Ek Er].
  2:{ rewrite !length_map, !length_take. lia. }
  apply map_Some_inj in Ek.
  split; [exact El|]. split; [|exact Er].
  intros i. unfold bit. rewrite <- El.
  destruct ((i >=? bitLength p) || (i <? 0)) eqn:Eout; [reflexivity|].
  apply orb_false_iff in Eout as [E1 E2].
  f_equal. rewrite !getBit_keyBit by lia. f_equal.
  unfold keyBit, u8_get. destruct (Z.ltb_spec (i / 8) 0); [reflexivity|].
  assert (Z.to_nat (i / 8) < Z.to_nat ((bitLength p + 7) / 8))%nat as Hlt by dlia.
  rewrite <- (lookup_take_lt (key p) _ _ Hlt), <- (lookup_take_lt (key q) _ _ Hlt).
  now rewrite Ek.
Qed.

Lemma serialize_prefix_free_witness :
  wf samplePath5 /\ wf (pathOfByte 21 5)
  /\ serialize samplePath5 [] ++ [Some 1] = serialize (pathOfByte 21 5) [] ++ [Some 1]
  /\ bitLength samplePath5 = 5.
Proof.
  split; [reflexivity|]. split; [reflexivity|]. split; [reflexivity|].
  destruct (serialize_prefix_free samplePath5 (pathOfByte 21 5) [Some 1] [Some 1]
              eq_refl eq_refl eq_refl) as (El & _ & _).
  rewrite El. reflexivity.
Defined.

(** X13. [serialize] on a path of the data model pushes one or two length
    bytes and [ceil(bitLength / 8)] key bytes, and everything it pushes is
    a byte, a number from 0 to 255. *)
Theorem serialize_size (p : ProofPath) (buffer : list (option Z)) :
  wf p ->
  Z.of_nat (length (serialize p buffer))
  = Z.of_nat (length buffer)
    + (if bitLength p <? 128 then 1 else 2) + (bitLength p + 7) / 8
  /\ (forall x, In x (serialize p []) -> exists b, x = Some b /\ 0 <= b < 256).
Proof.
  intros Hp.
  pose proof (wf_bitLength p Hp) as Lp. pose proof (wf_length p Hp) as Kp.
  rewrite !serialize_bytes by assumption. split.
  - rewrite !length_app, length_map, length_take.
    destruct (Z.ltb_spec (bitLength p) 128); cbn [length]; dlia.
  - cbn [app]. intros x Hx. apply in_app_or in Hx as [Hx|Hx].
    + destruct (Z.ltb_spec (bitLength p) 128).
      * destruct Hx as [<-|[]]. eexists. split; [reflexivity | lia].
      * destruct Hx as [<-|[<-|[]]]; eexists; (split; [reflexivity | dlia]).
    + apply in_map_iff in Hx as (b & <- & Hb).
      exists b. split; [reflexivity|].
      apply list_elem_of_In, list_elem_of_lookup in Hb as [j Hj].
      apply lookup_take_Some in Hj as [Hj _].
      exact (allBytes_lookup (key p) j b (wf_allBytes p Hp) Hj).
Qed.

Lemma serialize_size_witness :
  wf samplePath12
  /\ Z.of_nat (length (serialize samplePath12 [Some 9])) = 4.
Proof.
  split; [reflexivity|].
  destruct (serialize_size samplePath12 [Some 9] eq_refl) as [E _].
  rewrite E. reflexivity.
Defined.

(** ** Padding and trimming strings *)

Lemma strlen_append s1 s2 : strlen (s1 ++ s2) = strlen s1 + strlen s2.
Proof.
  unfold strlen. induction s1 as [|c s1 IH]; cbn [String.append String.length].
  - lia.
  - rewrite !Nat2Z.inj_succ. lia.
Qed.

Lemma substring_all s n :
  (String.length s <= n)%nat -> String.substring 0 n s = s.
Proof.
  revert n. induction s as [|c s IH]; intros [|n] H; cbn in *;
    try reflexivity; try lia.
  f_equal. apply IH. lia.
Qed.

Lemma substring_append s1 s2 :
  String.substring 0 (String.length s1) (s1 ++ s2) = s1.
Proof.
  induction s1 as [|c s1 IH]; cbn.
  - destruct s2; reflexivity.
  - now rewrite IH.
Qed.

(** A prefix splits the string. *)
Lemma substring_split s n :
  (n <= String.length s)%nat ->
  exists rest,
    s = (String.substring 0 n s ++ rest)%string
    /\ String.length (String.substring 0 n s) = n.
Proof.
  revert n. induction s as [|c s IH]; intros [|n] H; cbn in *; try lia.
  - exists EmptyString. split; reflexivity.
  - exists (String c s). split; reflexivity.
  - destruct (IH n ltac:(lia)) as (rest & E & L).
    exists rest. split; [now rewrite <- E | now rewrite L].
Qed.

Lemma substring_substring s m n :
  (m <= n)%nat ->
  String.substring 0 m (String.substring 0 n s) = String.substring 0 m s.
Proof.
  revert m n. induction s as [|c s IH]; intros [|m] [|n] H; cbn;
    try reflexivity; try lia.
  f_equal. apply IH. lia.
Qed.

Lemma substring_zeroDigits m n :
  String.substring 0 m (zeroDigits n) = zeroDigits (Nat.min m n).
Proof.
  unfold zeroDigits. revert m. induction n as [|n IH]; intros [|m]; cbn;
    try reflexivity.
  now rewrite IH.
Qed.

(** X14. [trimZeros] throws its [Error] exactly when the string is shorter
    than the desired length; for a desired length from 0 up to the length
    of the string it returns the prefix of that length, and for a negative
    one the empty string. *)
Theorem trimZeros_spec (str : string) (n : Z) :
  (trimZeros str n = Throw Error <-> strlen str < n)
  /\ (0 <= n <= strlen str ->
      exists t rest,
        trimZeros str n = Ok t /\ str = (t ++ rest)%string /\ strlen t = n)
  /\ (n < 0 -> trimZeros str n = Ok EmptyString).
Proof.
  unfold trimZeros, JS.substring0, strlen. repeat split.
  - destruct (Z.ltb_spec (Z.of_nat (String.length str)) n);
      [auto | discriminate].
  - destruct (Z.ltb_spec (Z.of_nat (String.length str)) n);
      [auto | lia].
  - intros Hn.
    destruct (Z.ltb_spec (Z.of_nat (String.length str)) n); [lia|].
    destruct (substring_split str (Z.to_nat n) ltac:(lia)) as (rest & E & L).
    eexists. exists rest. split; [reflexivity|]. split; [exact E|].
    rewrite L. lia.
  - intros Hn.
    destruct (Z.ltb_spec (Z.of_nat (String.length str)) n); [lia|].
    replace (Z.to_nat n) with 0%nat by lia.
    destruct str; reflexivity.
Qed.

Lemma trimZeros_spec_witness :
  0 <= 2 <= strlen "10110"
  /\ trimZeros "10110" 2 = Ok "10"%string
  /\ trimZeros "10110" 6 = Throw Error.
Proof.
  destruct (trimZeros_spec "10110" 6) as (Hthrow & _ & _).
  split; [by_compute|]. split; [reflexivity|].
  apply Hthrow. by_compute.
Defined.

(** X15. [padWithZeros] appends zeros and never shortens: the result is
    the string followed by the missing number of '0' characters, at most
    256 of them, so it has the desired length whenever at most 256
    characters are missing; trimming the result back to the length of the
    string returns the string. *)
Theorem padWithZeros_spec (str : string) (desiredLength : Z) :
  padWithZeros str desiredLength
  = (str ++ zeroDigits (Z.to_nat (Z.min (desiredLength - strlen str) 256)))%string
  /\ (strlen str <= desiredLength <= strlen str + 256 ->
      strlen (padWithZeros str desiredLength) = desiredLength)
  /\ trimZeros (padWithZeros str desiredLength) (strlen str) = Ok str.
Proof.
  assert (padWithZeros str desiredLength
          = (str ++ zeroDigits
                      (Z.to_nat (Z.min (desiredLength - strlen str) 256)))%string)
    as E.
  { unfold padWithZeros, JS.substring0.
    change ZEROS with (zeroDigits 256). rewrite substring_zeroDigits.
    do 2 f_equal. lia. }
  split; [exact E|]. split.
  - intros H. rewrite E, strlen_append. unfold zeroDigits.
    rewrite stringOfBits_length, length_replicate. lia.
  - unfold trimZeros. rewrite E, strlen_append.
    destruct (Z.ltb_spec (strlen str + strlen (zeroDigits
               (Z.to_nat (Z.min (desiredLength - strlen str) 256)))) (strlen str))
      as [Hlt|_].
    + unfold strlen in Hlt. lia.
    + unfold JS.substring0, strlen. rewrite Nat2Z.id.
      now rewrite substring_append.
Qed.

Lemma padWithZeros_spec_witness :
  strlen "101" <= 8 <= strlen "101" + 256
  /\ padWithZeros "101" 8 = "10100000"%string
  /\ strlen (padWithZeros "101" 8) = 8.
Proof.
  split; [by_compute|]. split; [reflexivity|].
  apply (padWithZeros_spec "101" 8). by_compute.
Defined.

(** ** The two text forms *)

(** X16. [toString] shows what [toJSON] returns: whenever [toJSON]
    succeeds with a string, [toString] succeeds with that string inside
    [path(...)] for a path of at most 8 bits, and with its first 8
    characters followed by "..." for a longer path. This holds for any
    hexadecimal-to-binary conversion. *)
Theorem toString_of_toJSON (hexToBinary : string -> string) (p : ProofPath)
    (j : string) :
  toJSON_with hexToBinary p = Ok j ->
  toString_with hexToBinary p
  = Ok ("path("
        ++ (if bitLength p >? 8 then JS.substring0 j 8 ++ "..." else j)
        ++ ")")%string.
Proof.
  unfold toJSON_with, toString_with, trimZeros. cbn zeta.
  set (bits := hexToBinary (hexKey p)).
  destruct (Z.ltb_spec (strlen bits) (bitLength p)) as [|Hlen]; [discriminate|].
  intros [= <-].
  destruct (Z.gtb_spec (bitLength p) 8) as [Hgt|Hle]; [|reflexivity].
  destruct (Z.ltb_spec (strlen bits) 8) as [|_]; [lia|].
  unfold JS.substring0. rewrite substring_substring by lia. reflexivity.
Qed.

Lemma toString_of_toJSON_witness :
  toJSON_with hexadecimalToBinaryString samplePath12 = Ok "101010000000"%string
  /\ toString_with hexadecimalToBinaryString samplePath12
     = Ok "path(10101000...)"%string.
Proof.
  split; [reflexivity|].
  apply (toString_of_toJSON hexadecimalToBinaryString samplePath12
           "101010000000"). reflexivity.
Defined.

(** ** Lengths outside the data model *)

Lemma shr_3_int32 a : - 2 ^ 31 <= a < 2 ^ 31 -> JS.shr a 3 = a / 8.
Proof.
  intros H. unfold JS.shr. rewrite toInt32_small by lia.
  change (Z.land 3 31) with 3. now rewrite Z.shiftr_div_pow2 by lia.
Qed.

Lemma countFrom_empty lo hi : hi <= lo -> countFrom lo hi = [].
Proof.
  intros H. unfold countFrom. now replace (Z.to_nat (hi - lo)) with 0%nat by lia.
Qed.

(** X17. [truncate] has no lower bound on the new length: for a negative
    length (a 32-bit integer) not above the length of the path it does not
    throw, and returns the path with an all-zero key and that negative
    number as its [bitLength]. *)
Theorem truncate_negative (p : ProofPath) (n : Z) :
  - 2 ^ 31 <= n < 0 -> n <= bitLength p ->
  truncate p n
  = Ok {| key := u8_new 32; bitLength := n;
          hexKey := uint8ArrayToHexadecimal (u8_new 32) |}.
Proof.
  intros Hn Hle. unfold truncate.
  destruct (Z.gtb_spec n (bitLength p)); [lia|]. cbn zeta.
  change (BIT_LENGTH / 8) with 32.
  assert (copyBytes p n (u8_new 32) = u8_new 32) as ->.
  { unfold copyBytes. rewrite shr_3_int32 by lia.
    rewrite countFrom_empty by dlia. reflexivity. }
  assert (copyBits p n (u8_new 32) = u8_new 32) as ->.
  { unfold copyBits. rewrite shr_3_int32 by lia.
    apply (countFrom_loop _ (fun _ bytes => bytes = u8_new 32)).
    - dlia.
    - reflexivity.
    - intros i bytes Hi ->.
      assert (bit p i = None) as -> by (apply bit_out_of_range; lia).
      unfold setBit, JS.floorDiv, u8_set.
      destruct (Z.ltb_spec (i / 8) 0); [reflexivity | dlia]. }
  reflexivity.
Qed.

Lemma truncate_negative_witness :
  - 2 ^ 31 <= -5 < 0 /\ -5 <= bitLength samplePath7
  /\ exists q, truncate samplePath7 (-5) = Ok q /\ bitLength q = -5.
Proof.
  split; [lia|]. split; [by_compute|].
  eexists. split; [apply (truncate_negative samplePath7 (-5)); [lia | by_compute]|].
  reflexivity.
Defined.

(** X18. [compare] is not a number when a length is negative: when the
    smaller of the two lengths is a negative 32-bit integer, the result is
    [NaN], also for a path compared with itself. *)
Theorem compare_negative_length (a b : ProofPath) :
  - 2 ^ 31 <= Z.min (bitLength a) (bitLength b) < 0 ->
  compare a b = None.
Proof.
  intros HI.
  assert (commonPrefixLength a b = 0) as Ek.
  { unfold commonPrefixLength.
    set (I := Z.min (bitLength a) (bitLength b)) in *.
    rewrite shr_3_int32 by lia.
    replace (Z.to_nat (I / 8)) with 0%nat by dlia. cbn [advanceBytes].
    now replace (Z.to_nat (I - 0)) with 0%nat by lia. }
  unfold compare. cbn zeta. rewrite Ek.
  destruct (Z.eqb_spec 0 (Z.min (bitLength a) (bitLength b))); [lia|].
  destruct (Z.le_ge_cases (bitLength a) (bitLength b)).
  - assert (bit a 0 = None) as -> by (apply bit_out_of_range; lia).
    reflexivity.
  - assert (bit b 0 = None) as -> by (apply bit_out_of_range; lia).
    destruct (bit a 0); reflexivity.
Qed.

Lemma compare_negative_length_witness :
  - 2 ^ 31 <= Z.min (bitLength (pathOfByte 0 (-1))) (bitLength (pathOfByte 0 (-1))) < 0
  /\ compare (pathOfByte 0 (-1)) (pathOfByte 0 (-1)) = None.
Proof.
  split; [by_compute|].
  apply (compare_negative_length (pathOfByte 0 (-1)) (pathOfByte 0 (-1))).
  by_compute.
Defined.

(** ** Keys built from buffers *)

(** X19. The constructor makes a canonical, terminal path, with the array
    as its key, out of every array of 32 bytes given without a length; two
    such paths compare equal exactly when the arrays are the same. *)
Theorem terminal_paths (a1 a2 : Uint8Array) :
  Z.of_nat (length a1) = 32 -> allBytes a1 ->
  Z.of_nat (length a2) = 32 -> allBytes a2 ->
  exists p1 p2,
    new_ProofPath (BitsUint8Array a1) None = Ok p1
    /\ new_ProofPath (BitsUint8Array a2) None = Ok p2
    /\ key p1 = a1 /\ isTerminal p1 = true /\ canonical p1
    /\ (compare p1 p2 = Some 0 <-> a1 = a2).
Proof.
  intros L1 B1 L2 B2.
  assert (forall a, Z.of_nat (length a) = 32 -> allBytes a ->
            exists p, new_ProofPath (BitsUint8Array a) None = Ok p
                      /\ key p = a /\ bitLength p = 256 /\ canonical p) as Hnew.
  { intros a La Ba. unfold new_ProofPath. change (BIT_LENGTH / 8) with 32.
    rewrite La. cbn [Z.eqb Pos.eqb]. eexists. split; [reflexivity|].
    split; [reflexivity|]. split; [reflexivity|].
    repeat split.
    - apply wf_intro; cbn [key bitLength default]; unfold BIT_LENGTH; auto; lia.
    - apply zeroPadded_intro. cbn [key bitLength default]. unfold BIT_LENGTH.
      intros i Hi Hlen. apply keyBit_beyond. lia. }
  destruct (Hnew a1 L1 B1) as (p1 & E1 & K1 & N1 & C1).
  destruct (Hnew a2 L2 B2) as (p2 & E2 & K2 & N2 & C2).
  exists p1, p2. repeat split; auto.
  - unfold isTerminal. rewrite N1. reflexivity.
  - apply C1.
  - apply C1.
  - apply C1.
  - intros E.
    apply compare_zero_bits in E as [El Hbits]; [|apply C1 | apply C2].
    rewrite <- K1, <- K2. f_equal. now apply canonical_ext.
  - intros Ea. apply compare_zero_bits; [apply C1 | apply C2 |].
    assert (p1 = p2) as -> by (subst a2; congruence).
    split; auto.
Qed.

Lemma terminal_paths_witness :
  Z.of_nat (length (key samplePath7)) = 32 /\ allBytes (key samplePath7)
  /\ exists p,
       new_ProofPath (BitsUint8Array (key samplePath7)) None = Ok p
       /\ isTerminal p = true.
Proof.
  split; [reflexivity|]. split; [reflexivity|].
  destruct (terminal_paths (key samplePath7) (key samplePath7)
              eq_refl eq_refl eq_refl eq_refl) as (p1 & p2 & E1 & _ & _ & T & _).
  exists p1. split; assumption.
Defined.

(** The text forms of the path of "1" and of a path of twelve bits. *)
Example scenario_text_forms :
  (exists p, new_ProofPath (BitsString "1") None = Ok p
             /\ toJSON p = Ok "1"%string
             /\ toString p = Ok "path(1)"%string)
  /\ toJSON samplePath12 = Ok "101010000000"%string
  /\ toString samplePath12 = Ok "path(10101000...)"%string.
Proof. split; [eexists|]; repeat split; reflexivity. Qed.
